(** * The Llama-2 chat prompt formatter of the almoghalisAI notebooks

    Source: [chat_with_llama2_nousresearch_huggingface_v1.ipynb], the cell
    that defines [convert_list_of_message_lists_to_input_prompt].

    The development has three layers.
    - [Py]: the few Python builtins the function relies on (exceptions,
      indexing, extended slices, [str.strip], [str.join], [str.count]).
    - A value-level embedding of the function, where a conversation is a
      list of [Message] records and a raised exception is a [Raise] outcome.
    - [Store]: an object-level embedding of the same function over a heap of
      list and dict objects, used for the claims about mutation of the
      caller's objects; it is related to the value-level embedding by a
      refinement theorem. *)

From Stdlib Require Import Ascii String Bool Arith Lia.
From stdpp Require Import base tactics option list strings.

(** ** Python builtins *)

Module Py.

(** The exceptions the function can raise.  [TypeError] only arises in the
    object-level embedding, on heaps that do not respect the annotated
    types. *)
Inductive exn : Type :=
| ValueError (msg : string)
| IndexError (msg : string)
| TypeError (msg : string).

(** Result of evaluating an expression or running a block. *)
Inductive outcome (A : Type) : Type :=
| Return (a : A)
| Raise (e : exn).
Arguments Return {A} a.
Arguments Raise {A} e.

Definition bind {A B} (c : outcome A) (k : A -> outcome B) : outcome B :=
  match c with
  | Return a => k a
  | Raise e => Raise e
  end.

Definition list_index_out_of_range : exn :=
  IndexError "list index out of range".

(** [l[i]] for a non-negative literal [i]. *)
Definition getitem {A} (l : list A) (i : nat) : outcome A :=
  match l !! i with
  | Some x => Return x
  | None => Raise list_index_out_of_range
  end.

(** [l[-1]]. *)
Definition getitem_last {A} (l : list A) : outcome A :=
  match last l with
  | Some x => Return x
  | None => Raise list_index_out_of_range
  end.

(** [l[::2]]: the elements at indices 0, 2, 4, ... *)
Fixpoint every_other {A} (l : list A) : list A :=
  match l with
  | [] => []
  | x :: t => x :: match t with
                   | [] => []
                   | _ :: l' => every_other l'
                   end
  end.

(** [l[1::2]]: the elements at indices 1, 3, 5, ... *)
Definition every_other_from1 {A} (l : list A) : list A :=
  every_other (drop 1 l).

(** [str.isspace] on one character.  A [str] is modelled as a [string]
    whose characters are the code points below 256; these are the twelve
    of them that Python classifies as whitespace. *)
Definition isspace (c : ascii) : bool :=
  match c with
  | "009" | "010" | "011" | "012" | "013"
  | "028" | "029" | "030" | "031" | " "
  | "133" | "160" => true
  | _ => false
  end%char.

Fixpoint lstrip (s : string) : string :=
  match s with
  | EmptyString => EmptyString
  | String c s' => if isspace c then lstrip s' else s
  end.

Fixpoint rstrip (s : string) : string :=
  match s with
  | EmptyString => EmptyString
  | String c s' =>
      match rstrip s' with
      | EmptyString => if isspace c then EmptyString else String c EmptyString
      | r => String c r
      end
  end.

(** [s.strip()] *)
Definition strip (s : string) : string := rstrip (lstrip s).

(** ["".join(parts)] *)
Definition join (parts : list string) : string := String.concat "" parts.

(** [s.count(sub)]: the number of non-overlapping occurrences of [sub],
    scanning from the left.  [skip] is the number of characters of the
    last match that are still to be passed over. *)
Fixpoint count_from (sub s : string) (skip : nat) : nat :=
  match s with
  | EmptyString => 0
  | String _ s' =>
      match skip with
      | S k => count_from sub s' k
      | 0 => if String.prefix sub s
             then S (count_from sub s' (String.length sub - 1))
             else count_from sub s' 0
      end
  end.

Definition count (s sub : string) : nat :=
  match sub with
  | EmptyString => S (String.length s)
  | _ => count_from sub s 0
  end.

End Py.

Export Py.

Declare Scope outcome_scope.
Delimit Scope outcome_scope with outcome.
Notation "x <- c ;; k" := (Py.bind c (fun x => k))
  (at level 100, c at next level, right associativity) : outcome_scope.

(** ** The data model of the notebook *)

(** [Role = Literal["system", "user", "assistant"]] *)
Inductive Role : Type := system | user | assistant.

Global Instance Role_eq_dec : EqDecision Role.
Proof. solve_decision. Defined.

(** The string a role is written as in the dictionaries. *)
Definition role_name (r : Role) : string :=
  match r with
  | system => "system"
  | user => "user"
  | assistant => "assistant"
  end.

(** [class Message(TypedDict)] *)
Record Message : Type := { role : Role; content : string }.

Global Instance Message_eq_dec : EqDecision Message.
Proof. solve_decision. Defined.

Definition MessageList : Type := list Message.

(** The two attributes of the [PreTrainedTokenizer] the function reads. *)
Record Tokenizer : Type := { bos_token : string; eos_token : string }.

Definition newline : string := String "010" EmptyString.

Definition BEGIN_INST : string := "[INST] ".
Definition END_INST : string := " [/INST] ".
Definition BEGIN_SYS : string := "<<SYS>>" +:+ newline.
Definition END_SYS : string := newline +:+ "<</SYS>>" +:+ newline +:+ newline.

(** The two [raise ValueError] sites.  The specification calls the first
    [InvalidRoleOrdering] and the second [MissingTrailingUserTurn]. *)
Definition InvalidRoleOrdering : exn :=
  ValueError ("Format must be in this order: 'system', 'user', 'assistant' roles."
              +:+ newline +:+
              "After that, you can alternate between user and assistant multiple times").

Definition MissingTrailingUserTurn (sent : Role) : exn :=
  ValueError ("Last message must be from user role. Instead, you sent from "
              +:+ role_name sent +:+ " role").

(** ** Value-level embedding *)

Section Formatter.
Local Open Scope outcome_scope.

(** The first [if] of the loop body: the rebinding of [message_list] when
    the conversation opens with a system message. *)
Definition merge_system (message_list : MessageList) : outcome MessageList :=
  m0 <- getitem message_list 0 ;;
  if bool_decide (role m0 = system) then
    m1 <- getitem message_list 1 ;;
    let content' := join [BEGIN_SYS; content m0; END_SYS; content m1] in
    Return ({| role := role m1; content := content' |} :: drop 2 message_list)
  else Return message_list.

(** The alternation test guarding the first [raise]. *)
Definition roles_alternate (message_list : MessageList) : bool :=
  forallb (fun msg => bool_decide (role msg = user)) (every_other message_list)
  && forallb (fun msg => bool_decide (role msg = assistant))
       (every_other_from1 message_list).

(** One [bos [INST] prompt [/INST] answer eos] block. *)
Definition exchange (bos eos : string) (pa : Message * Message) : string :=
  join [bos; BEGIN_INST; strip (content pa.1); END_INST;
        strip (content pa.2); eos].

(** The loop body from the role check on, for [message_list] as it is
    bound after the first [if]. *)
Definition format_merged (tokenizer : Tokenizer)
    (message_list : MessageList) : outcome string :=
  if negb (roles_alternate message_list) then Raise InvalidRoleOrdering
  else
    let eos := eos_token tokenizer in
    let bos := bos_token tokenizer in
    let input_prompt :=
      join (map (exchange bos eos)
              (zip (every_other message_list) (every_other_from1 message_list))) in
    last_msg <- getitem_last message_list ;;
    if negb (bool_decide (role last_msg = user))
    then Raise (MissingTrailingUserTurn (role last_msg))
    else
      Return (input_prompt +:+
              join [bos; BEGIN_INST; strip (content last_msg); END_INST]).

(** The body of the [for] loop, for one [message_list]. *)
Definition format_message_list (tokenizer : Tokenizer)
    (message_list : MessageList) : outcome string :=
  message_list <- merge_system message_list ;;
  format_merged tokenizer message_list.

(** The [for] loop, with [input_prompts] as accumulator. *)
Fixpoint format_all (tokenizer : Tokenizer) (rest : list MessageList)
    (input_prompts : list string) : outcome (list string) :=
  match rest with
  | [] => Return input_prompts
  | message_list :: rest' =>
      input_prompt <- format_message_list tokenizer message_list ;;
      format_all tokenizer rest' (input_prompts ++ [input_prompt])
  end.

(** The whole function.  The two [print] calls write to the standard
    output, which this embedding does not track (the object-level one
    does); the second one evaluates [list_of_message_lists[0]]. *)
Definition convert_list_of_message_lists_to_input_prompt
    (list_of_message_lists : list MessageList) (tokenizer : Tokenizer)
    : outcome (list string) :=
  _ <- getitem list_of_message_lists 0 ;;
  format_all tokenizer list_of_message_lists [].

End Formatter.

(** ** Object-level embedding

    The same function over a heap of Python objects.  Lists and dicts live
    in the heap and are referred to by location, so that two variables can
    alias one object and a write through one is seen through the other;
    strings are immutable and are plain values.  A program is a function
    from the state before to the state after together with an outcome; it
    gives [None] only when the iteration budget of a [for] loop is used up. *)

Module Store.

(** A location is an index into the heap. *)
Abbreviation loc := nat (only parsing).

Inductive value : Type :=
| VStr (s : string)
| VRef (l : loc).

Inductive object : Type :=
| ODict (m : Message)          (* a dict with the keys "role" and "content" *)
| OList (items : list value).

Record state : Type := { heap : list object; stdout : list string }.

Definition prog (A : Type) : Type := state -> option (state * outcome A).

Definition ret {A} (a : A) : prog A := fun st => Some (st, Return a).

Definition raise {A} (e : exn) : prog A := fun st => Some (st, Raise e).

Definition lift {A} (o : outcome A) : prog A := fun st => Some (st, o).

Definition bind {A B} (c : prog A) (k : A -> prog B) : prog B :=
  fun st =>
    match c st with
    | Some (st', Return a) => k a st'
    | Some (st', Raise e) => Some (st', Raise e)
    | None => None
    end.

Definition out_of_budget {A} : prog A := fun _ => None.

Declare Scope prog_scope.
Delimit Scope prog_scope with prog.
Notation "x <- c ;; k" := (bind c (fun x => k))
  (at level 100, c at next level, right associativity) : prog_scope.
Notation "c ;;; k" := (bind c (fun _ => k))
  (at level 100, right associativity) : prog_scope.
Local Open Scope prog_scope.

(** A new object is placed at the first unused location. *)
Definition alloc (o : object) : prog value :=
  fun st =>
    Some ({| heap := heap st ++ [o]; stdout := stdout st |},
          Return (VRef (length (heap st)))).

(** Uses of a value at a type it does not have.  They cannot happen when
    the arguments respect the annotations of the function; the model
    reports all of them as [TypeError]. *)
Definition not_a_list : exn := TypeError "object is not a list".
Definition not_a_dict : exn := TypeError "object is not a dict".

Definition load_list (v : value) : prog (list value) :=
  fun st =>
    match v with
    | VRef l =>
        match heap st !! l with
        | Some (OList items) => Some (st, Return items)
        | _ => Some (st, Raise not_a_list)
        end
    | VStr _ => Some (st, Raise not_a_list)
    end.

Definition load_dict (v : value) : prog Message :=
  fun st =>
    match v with
    | VRef l =>
        match heap st !! l with
        | Some (ODict m) => Some (st, Return m)
        | _ => Some (st, Raise not_a_dict)
        end
    | VStr _ => Some (st, Raise not_a_dict)
    end.

(** [print(line)] *)
Definition print (line : string) : prog unit :=
  fun st => Some ({| heap := heap st; stdout := stdout st ++ [line] |}, Return tt).

(** [str(type(v))] *)
Definition type_of (v : value) : prog string :=
  fun st =>
    match v with
    | VStr _ => Some (st, Return "<class 'str'>")
    | VRef l =>
        match heap st !! l with
        | Some (OList _) => Some (st, Return "<class 'list'>")
        | Some (ODict _) => Some (st, Return "<class 'dict'>")
        | None => Some (st, Raise (TypeError "dangling reference"))
        end
    end.

(** [target.append(v)]: the one operation of the function that writes to
    an existing object. *)
Definition append (target v : value) : prog unit :=
  fun st =>
    match target with
    | VRef l =>
        match heap st !! l with
        | Some (OList items) =>
            Some ({| heap := <[l := OList (items ++ [v])]> (heap st);
                     stdout := stdout st |}, Return tt)
        | _ => Some (st, Raise not_a_list)
        end
    | VStr _ => Some (st, Raise not_a_list)
    end.

(** [v[i]] and [v[-1]] on a list object. *)
Definition subscript (v : value) (i : nat) : prog value :=
  items <- load_list v ;; lift (getitem items i).

Definition subscript_last (v : value) : prog value :=
  items <- load_list v ;; lift (getitem_last items).

(** [msg["role"]] and [msg["content"]] *)
Definition get_role (msg : value) : prog Role :=
  m <- load_dict msg ;; ret (role m).

Definition get_content (msg : value) : prog string :=
  m <- load_dict msg ;; ret (content m).

(** A list comprehension [[f(x) for x in xs]] over an already evaluated
    list of values. *)
Fixpoint comprehension {A B} (f : A -> prog B) (xs : list A) : prog (list B) :=
  match xs with
  | [] => ret []
  | x :: xs' => y <- f x ;; ys <- comprehension f xs' ;; ret (y :: ys)
  end.

(** [for x in iterable: body(x)], with the list iterator of Python: it
    keeps an index and reads the list object again at every step. *)
Fixpoint for_each (budget : nat) (iterable : value) (i : nat)
    (body : value -> prog unit) : prog unit :=
  match budget with
  | 0 => out_of_budget
  | S budget' =>
      items <- load_list iterable ;;
      match items !! i with
      | None => ret tt
      | Some x => body x ;;; for_each budget' iterable (S i) body
      end
  end.

(** The rebinding of [message_list] for a leading system message.  The
    new dict and the new list are fresh objects; the list display and
    the slice that are added up to give the new list are temporaries
    and are not given a location. *)
Definition merge_system (message_list : value) : prog value :=
  m0 <- subscript message_list 0 ;;
  r0 <- get_role m0 ;;
  if bool_decide (r0 = system) then
    m0 <- subscript message_list 0 ;;
    c0 <- get_content m0 ;;
    m1 <- subscript message_list 1 ;;
    c1 <- get_content m1 ;;
    let content' := join [BEGIN_SYS; c0; END_SYS; c1] in
    m1 <- subscript message_list 1 ;;
    r1 <- get_role m1 ;;
    merged <- alloc (ODict {| role := r1; content := content' |}) ;;
    items <- load_list message_list ;;
    alloc (OList (merged :: drop 2 items))
  else ret message_list.

(** [all([..user..]) and all([..assistant..])]; the second comprehension
    is only evaluated when the first test holds. *)
Definition roles_alternate (message_list : value) : prog bool :=
  items <- load_list message_list ;;
  evens <- comprehension get_role (every_other items) ;;
  if forallb (fun r => bool_decide (r = user)) evens then
    items <- load_list message_list ;;
    odds <- comprehension get_role (every_other_from1 items) ;;
    ret (forallb (fun r => bool_decide (r = assistant)) odds)
  else ret false.

Definition exchange (bos eos : string) (pa : value * value) : prog string :=
  p <- get_content pa.1 ;;
  a <- get_content pa.2 ;;
  ret (join [bos; BEGIN_INST; strip p; END_INST; strip a; eos]).

(** The loop body from the role check up to, and without,
    [input_prompts.append]. *)
Definition format_merged (tokenizer : Tokenizer) (message_list : value)
    : prog string :=
  ok <- roles_alternate message_list ;;
  if negb ok then raise InvalidRoleOrdering
  else
    let eos := eos_token tokenizer in
    let bos := bos_token tokenizer in
    evens <- load_list message_list ;;
    odds <- load_list message_list ;;
    blocks <- comprehension (exchange bos eos)
                (zip (every_other evens) (every_other_from1 odds)) ;;
    let input_prompt := join blocks in
    last_msg <- subscript_last message_list ;;
    r <- get_role last_msg ;;
    if negb (bool_decide (r = user)) then
      last_msg <- subscript_last message_list ;;
      sent <- get_role last_msg ;;
      raise (MissingTrailingUserTurn sent)
    else
      last_msg <- subscript_last message_list ;;
      c <- get_content last_msg ;;
      ret (input_prompt +:+ join [bos; BEGIN_INST; strip c; END_INST]).

Definition format_message_list (tokenizer : Tokenizer) (message_list : value)
    : prog string :=
  message_list <- merge_system message_list ;;
  format_merged tokenizer message_list.

Definition loop_body (tokenizer : Tokenizer) (input_prompts : value)
    (message_list : value) : prog unit :=
  input_prompt <- format_message_list tokenizer message_list ;;
  append input_prompts (VStr input_prompt).

Definition convert_list_of_message_lists_to_input_prompt (budget : nat)
    (list_of_message_lists : value) (tokenizer : Tokenizer) : prog value :=
  input_prompts <- alloc (OList []) ;;
  t <- type_of list_of_message_lists ;;
  print t ;;;
  first <- subscript list_of_message_lists 0 ;;
  t0 <- type_of first ;;
  print t0 ;;;
  for_each budget list_of_message_lists 0 (loop_body tokenizer input_prompts) ;;;
  ret input_prompts.

(** *** Reading values back from a heap *)

Definition decode_message (h : list object) (v : value) : option Message :=
  match v with
  | VRef l => match h !! l with Some (ODict m) => Some m | _ => None end
  | VStr _ => None
  end.

Definition decode_items (h : list object) (v : value) : option (list value) :=
  match v with
  | VRef l => match h !! l with Some (OList items) => Some items | _ => None end
  | VStr _ => None
  end.

Definition decode_conversation (h : list object) (v : value)
    : option MessageList :=
  items ← decode_items h v; mapM (decode_message h) items.

Definition decode_batch (h : list object) (v : value)
    : option (list MessageList) :=
  items ← decode_items h v; mapM (decode_conversation h) items.

Definition decode_str (v : value) : option string :=
  match v with VStr s => Some s | VRef _ => None end.

Definition decode_prompts (h : list object) (v : value) : option (list string) :=
  items ← decode_items h v; mapM decode_str items.

(** Every object of [h] is still there, unchanged, in [h']. *)
Definition preserved (h h' : list object) : Prop :=
  forall l o, h !! l = Some o -> h' !! l = Some o.

(** The outcome of the object-level run denotes the value-level one. *)
Definition denotes (h' : list object) (r : outcome value)
    (o : outcome (list string)) : Prop :=
  match r, o with
  | Return v, Return prompts => decode_prompts h' v = Some prompts
  | Raise e, Raise e' => e = e'
  | _, _ => False
  end.

(** [framed P c]: whatever [c] does, an object at a location outside [P]
    is the same after the run. *)
Definition framed {A} (P : loc -> Prop) (c : prog A) : Prop :=
  forall st st' r, c st = Some (st', r) ->
    forall l o, ~ P l -> heap st !! l = Some o -> heap st' !! l = Some o.

End Store.

(** ** Sample data *)

Definition sample_tokenizer : Tokenizer :=
  {| bos_token := "<bos>"; eos_token := "<eos>" |}.

(** The conversation system, user, assistant, user. *)
Definition four_turns : MessageList :=
  [ {| role := system; content := "S" |};
    {| role := user; content := "U1" |};
    {| role := assistant; content := "A1" |};
    {| role := user; content := "U2" |} ].

(** A user content that starts with a blank, after a system turn. *)
Definition blank_before_user : MessageList :=
  [ {| role := system; content := "S" |};
    {| role := user; content := " U" |} ].

(** A heap with one conversation, system "S" then user " U ", and at
    location 3 a batch that holds this one list object twice. *)
Definition sample_heap : list Store.object :=
  [ Store.ODict {| role := system; content := "S" |};
    Store.ODict {| role := user; content := " U " |};
    Store.OList [Store.VRef 0; Store.VRef 1];
    Store.OList [Store.VRef 2; Store.VRef 2] ].

Definition sample_batch : list MessageList :=
  [ [ {| role := system; content := "S" |}; {| role := user; content := " U " |} ];
    [ {| role := system; content := "S" |}; {| role := user; content := " U " |} ] ].

Definition sample_state : Store.state :=
  {| Store.heap := sample_heap; Store.stdout := [] |}.

(** ** What the specification says, as definitions

    These follow the wording of the specification and are compared with the
    embedding of the code in the theorems below. *)

(** User and assistant turns alternate, starting and ending with a user. *)
Fixpoint alternates (ml : MessageList) : bool :=
  match ml with
  | [] => false
  | u :: t =>
      bool_decide (role u = user)
      && match t with
         | [] => true
         | a :: rest => bool_decide (role a = assistant) && alternates rest
         end
  end.

(** A well-formed conversation: an optional single leading system turn, then
    alternating user and assistant turns, ending in a user turn. *)
Definition well_formed (ml : MessageList) : bool :=
  match ml with
  | [] => false
  | m :: rest =>
      if bool_decide (role m = system) then alternates rest else alternates ml
  end.

(** Step 1 of the contract: the system turn merged into the turn after it. *)
Definition after_merge (ml : MessageList) : MessageList :=
  match ml with
  | s :: m :: rest =>
      if bool_decide (role s = system)
      then {| role := role m;
              content := BEGIN_SYS +:+ content s +:+ END_SYS +:+ content m |} :: rest
      else ml
  | _ => ml
  end.

(** Steps 4 to 6: one closed segment per (user, assistant) pair, then the
    open segment of the trailing user turn.  [trim] is what is done to the
    content of a turn before it is placed in its segment. *)
Fixpoint segments_with (trim : string -> string) (tok : Tokenizer)
    (ml : MessageList) : string :=
  match ml with
  | [] => ""
  | u :: t =>
      match t with
      | [] => bos_token tok +:+ BEGIN_INST +:+ trim (content u) +:+ END_INST
      | a :: rest =>
          bos_token tok +:+ BEGIN_INST +:+ trim (content u) +:+ END_INST
          +:+ trim (content a) +:+ eos_token tok +:+ segments_with trim tok rest
      end
  end.

Definition segments : Tokenizer -> MessageList -> string := segments_with strip.

(** A turn with its own content trimmed. *)
Definition trim_turn (m : Message) : Message :=
  {| role := role m; content := strip (content m) |}.

(** The prompt in which the content of every turn of the conversation,
    system turn included, has been trimmed on its own and is then placed
    verbatim. *)
Definition every_turn_trimmed (tok : Tokenizer) (ml : MessageList) : string :=
  segments_with id tok (after_merge (map trim_turn ml)).

Fixpoint all_space (s : string) : bool :=
  match s with
  | EmptyString => true
  | String c s' => isspace c && all_space s'
  end.

Definition starts_with_space (s : string) : bool :=
  match s with
  | EmptyString => false
  | String c _ => isspace c
  end.

Fixpoint ends_with_space (s : string) : bool :=
  match s with
  | EmptyString => false
  | String c s' =>
      match s' with
      | EmptyString => isspace c
      | _ => ends_with_space s'
      end
  end.

(** [t] is [c] with its leading and trailing whitespace removed and
    everything in between kept as it is. *)
Definition trimmed_of (c t : string) : Prop :=
  exists l r, c = l +:+ t +:+ r
    /\ all_space l = true /\ all_space r = true
    /\ starts_with_space t = false /\ ends_with_space t = false.

(** The reading of the batch contract in which every conversation is
    handled on its own: whatever else is in the batch, the prompt of a
    conversation that formats is part of the result. *)
Definition formats_independently : Prop :=
  forall tok (batch : list MessageList) i ml p,
    batch !! i = Some ml ->
    format_message_list tok ml = Return p ->
    exists prompts,
      convert_list_of_message_lists_to_input_prompt batch tok = Return prompts
      /\ prompts !! i = Some p.

(** A turn at an even index that is not a user turn, or at an odd index
    that is not an assistant turn. *)
Definition ordering_violated (ml : MessageList) : Prop :=
  exists i m, ml !! i = Some m
    /\ ((Nat.even i = true /\ role m <> user)
        \/ (Nat.odd i = true /\ role m <> assistant)).

(** The reading of the trailing-user rule that ignores the order of the
    checks. *)
Definition last_not_user_gives_missing_trailing : Prop :=
  forall tok ml merged last_msg,
    merge_system ml = Return merged ->
    last merged = Some last_msg ->
    role last_msg <> user ->
    format_message_list tok ml = Raise (MissingTrailingUserTurn (role last_msg)).

(** The error taxonomy of the specification. *)
Definition only_format_errors : Prop :=
  forall tok (batch : list MessageList) e,
    convert_list_of_message_lists_to_input_prompt batch tok = Raise e ->
    e = InvalidRoleOrdering \/ exists r, e = MissingTrailingUserTurn r.

(** ** Strings *)

Lemma str_app_cons c s t : String c s +:+ t = String c (s +:+ t).
Proof. reflexivity. Qed.

Lemma str_app_nil_l s : "" +:+ s = s.
Proof. reflexivity. Qed.

Lemma str_app_nil_r s : s +:+ "" = s.
Proof. induction s as [|c s IH]; [done|]. by rewrite str_app_cons, IH. Qed.

Lemma str_app_assoc s t u : (s +:+ t) +:+ u = s +:+ t +:+ u.
Proof. induction s as [|c s IH]; [done|]. by rewrite !str_app_cons, IH. Qed.

Lemma join_nil : join [] = "".
Proof. reflexivity. Qed.

Lemma join_cons x xs : join (x :: xs) = x +:+ join xs.
Proof.
  unfold join. destruct xs as [|y ys]; simpl.
  - by rewrite str_app_nil_r.
  - by rewrite str_app_nil_l.
Qed.

Lemma join_app xs ys : join (xs ++ ys) = join xs +:+ join ys.
Proof.
  induction xs as [|x xs IH]; [done|].
  rewrite <- app_comm_cons, !join_cons, IH. by rewrite str_app_assoc.
Qed.

Ltac join_flat :=
  rewrite ?join_cons, ?join_nil, ?str_app_nil_r, ?str_app_nil_l, ?str_app_assoc.

(** ** Slices *)

Lemma pair_ind {A} (P : list A -> Prop) :
  P [] -> (forall x, P [x]) -> (forall x y l, P l -> P (x :: y :: l)) ->
  forall l, P l.
Proof.
  intros H0 H1 H2.
  assert (forall l, P l /\ forall x, P (x :: l)) as H; [|intros l; apply H].
  induction l as [|y l [IHl IHc]]; split; auto.
Qed.

Lemma every_other_cons2 {A} (x y : A) l :
  every_other (x :: y :: l) = x :: every_other l.
Proof. reflexivity. Qed.

Lemma every_other_from1_cons2 {A} (x y : A) l :
  every_other_from1 (x :: y :: l) = y :: every_other_from1 l.
Proof. unfold every_other_from1. by destruct l. Qed.

Lemma forallb_every_other {A} (P : A -> bool) (l : list A) :
  forallb P (every_other l) = true
  <-> forall i m, l !! i = Some m -> Nat.even i = true -> P m = true.
Proof.
  induction l as [| x | x y l IH] using pair_ind.
  - split; [intros _ i m Hl | done]. by destruct i.
  - split.
    + simpl. intros HP [|i] m Hl Hi; simplify_eq/=. by destruct (P m).
    + intros H. simpl. by rewrite (H 0 x).
  - rewrite every_other_cons2. simpl. rewrite andb_true_iff, IH. split.
    + intros [Hx Hl] [|[|i]] m Hm Hi; simplify_eq/=; eauto.
    + intros H. split; [by apply (H 0)|].
      intros i m Hm Hi. by apply (H (S (S i))).
Qed.

Lemma forallb_every_other_from1 {A} (P : A -> bool) (l : list A) :
  forallb P (every_other_from1 l) = true
  <-> forall i m, l !! i = Some m -> Nat.odd i = true -> P m = true.
Proof.
  unfold every_other_from1. rewrite forallb_every_other. split.
  - intros H [|i] m Hm Hi; [done|].
    apply (H i); [by rewrite lookup_drop | by rewrite <- Nat.odd_succ].
  - intros H i m Hm Hi. rewrite lookup_drop in Hm.
    apply (H (1 + i)); [done | by rewrite Nat.odd_succ].
Qed.

(** The test of the code, read index by index. *)
Lemma roles_alternate_spec (ml : MessageList) :
  roles_alternate ml = true
  <-> forall i m, ml !! i = Some m ->
        (Nat.even i = true -> role m = user)
        /\ (Nat.odd i = true -> role m = assistant).
Proof.
  unfold roles_alternate.
  rewrite andb_true_iff, forallb_every_other, forallb_every_other_from1.
  split.
  - intros [Hu Ha] i m Hm. split; intros Hi.
    + eapply bool_decide_eq_true_1, Hu; eauto.
    + eapply bool_decide_eq_true_1, Ha; eauto.
  - intros H. split; intros i m Hm Hi; apply bool_decide_eq_true_2;
      by apply (H i m Hm).
Qed.

Lemma roles_alternate_not_violated (ml : MessageList) :
  roles_alternate ml = true <-> ~ ordering_violated ml.
Proof.
  rewrite roles_alternate_spec. unfold ordering_violated. split.
  - intros H (i & m & Hm & [[Hi Hr] | [Hi Hr]]);
      destruct (H i m Hm) as [Hu Ha]; auto.
  - intros H i m Hm. split; intros Hi.
    + destruct (decide (role m = user)) as [|Hr]; [done|].
      destruct H. exists i, m. auto.
    + destruct (decide (role m = assistant)) as [|Hr]; [done|].
      destruct H. exists i, m. auto.
Qed.

(** ** The loop body on a conversation that alternates *)

Lemma alternates_formats (tok : Tokenizer) (ml : MessageList) :
  alternates ml = true ->
  roles_alternate ml = true
  /\ exists last_msg,
       last ml = Some last_msg /\ role last_msg = user
       /\ join (map (exchange (bos_token tok) (eos_token tok))
                  (zip (every_other ml) (every_other_from1 ml)))
          +:+ join [bos_token tok; BEGIN_INST; strip (content last_msg); END_INST]
          = segments tok ml.
Proof.
  induction ml as [| x | x y l IH] using pair_ind; [done| |].
  - simpl. rewrite andb_true_r. intros Hx%bool_decide_eq_true_1.
    split.
    + unfold roles_alternate. simpl. by rewrite bool_decide_eq_true_2.
    + exists x. split_and!; [done..|]. simpl.
      unfold segments. simpl. by join_flat.
  - intros H. simpl in H. rewrite !andb_true_iff in H.
    destruct H as (Hx%bool_decide_eq_true_1 & Hy%bool_decide_eq_true_1 & Hl).
    destruct (IH Hl) as (Halt & last_msg & Hlast & Hrole & Hseg).
    split.
    + unfold roles_alternate in *.
      rewrite every_other_cons2, every_other_from1_cons2. simpl.
      rewrite !bool_decide_eq_true_2 by done. done.
    + exists last_msg. split_and!; [|done|].
      * by rewrite !last_cons, Hlast.
      * rewrite every_other_cons2, every_other_from1_cons2. simpl.
        rewrite join_cons, str_app_assoc, Hseg.
        unfold exchange, segments. simpl. fold (segments_with strip tok l).
        by join_flat.
Qed.

Lemma merge_system_no_system (m : Message) rest :
  role m <> system -> merge_system (m :: rest) = Return (m :: rest).
Proof. intros H. unfold merge_system. simpl. by rewrite bool_decide_eq_false_2. Qed.

Lemma merge_system_system (s m : Message) rest :
  role s = system ->
  merge_system (s :: m :: rest)
  = Return ({| role := role m;
               content := BEGIN_SYS +:+ content s +:+ END_SYS +:+ content m |}
            :: rest).
Proof.
  intros H. unfold merge_system. simpl. rewrite bool_decide_eq_true_2 by done.
  by join_flat.
Qed.

Lemma well_formed_after_merge (ml : MessageList) :
  well_formed ml = true ->
  merge_system ml = Return (after_merge ml) /\ alternates (after_merge ml) = true.
Proof.
  destruct ml as [|m rest]; [done|]. simpl.
  case_bool_decide as Hm.
  - destruct rest as [|u rest]; [done|]. intros Halt.
    rewrite merge_system_system by done. split; [done|].
    simpl in *. done.
  - intros Halt. rewrite merge_system_no_system by done.
    destruct rest; by rewrite ?bool_decide_eq_false_2.
Qed.

Lemma well_formed_formats (tok : Tokenizer) (ml : MessageList) :
  well_formed ml = true ->
  format_message_list tok ml = Return (segments tok (after_merge ml)).
Proof.
  intros [Hmerge Halt]%well_formed_after_merge.
  destruct (alternates_formats tok _ Halt) as (Hroles & last_msg & Hlast & Hrole & Hseg).
  unfold format_message_list. rewrite Hmerge. simpl. unfold format_merged.
  rewrite Hroles. simpl. unfold getitem_last. rewrite Hlast. simpl.
  rewrite bool_decide_eq_true_2 by done. simpl. by rewrite Hseg.
Qed.

(** ** [str.strip] *)

Lemma lstrip_spec (s : string) :
  exists l, s = l +:+ lstrip s
    /\ all_space l = true /\ starts_with_space (lstrip s) = false.
Proof.
  induction s as [|c s (l & Hs & Hl & Hstart)]; [by exists ""|].
  simpl. destruct (isspace c) eqn:Hc.
  - exists (String c l). rewrite str_app_cons, <- Hs. simpl. by rewrite Hc, Hl.
  - exists "". simpl. by rewrite Hc.
Qed.

Lemma rstrip_spec (s : string) :
  exists r, s = rstrip s +:+ r
    /\ all_space r = true /\ ends_with_space (rstrip s) = false.
Proof.
  induction s as [|c s (r & Hs & Hr & Hend)]; [by exists ""|].
  simpl. destruct (rstrip s) as [|d t] eqn:Ht.
  - rewrite str_app_nil_l in Hs. subst r. destruct (isspace c) eqn:Hc.
    + exists (String c s). simpl. by rewrite Hc, Hr.
    + exists s. simpl. by rewrite Hc.
  - exists r. by rewrite str_app_cons, <- Hs.
Qed.

Lemma rstrip_keeps_start (s : string) :
  starts_with_space s = false -> starts_with_space (rstrip s) = false.
Proof.
  destruct s as [|c s]; [done|]. simpl. intros Hc.
  destruct (rstrip s); by rewrite ?Hc.
Qed.

Lemma strip_trimmed (c : string) : trimmed_of c (strip c).
Proof.
  destruct (lstrip_spec c) as (l & Hc & Hl & Hstart).
  destruct (rstrip_spec (lstrip c)) as (r & Hc' & Hr & Hend).
  exists l, r. unfold strip. split_and!; auto using rstrip_keeps_start.
  by rewrite <- Hc', <- Hc.
Qed.

Lemma rstrip_all_space (s : string) : all_space s = true -> rstrip s = "".
Proof.
  induction s as [|c s IH]; [done|]. simpl.
  intros [Hc Hs]%andb_true_iff. by rewrite IH, Hc.
Qed.

Lemma rstrip_not_all_space (s : string) : all_space s = false -> rstrip s <> "".
Proof.
  induction s as [|c s IH]; [done|]. simpl. intros H.
  destruct (all_space s) eqn:Hs.
  - rewrite rstrip_all_space by done. rewrite andb_true_r in H. by rewrite H.
  - specialize (IH eq_refl). by destruct (rstrip s).
Qed.

Lemma rstrip_app_nonempty (a b : string) :
  rstrip b <> "" -> rstrip (a +:+ b) = a +:+ rstrip b.
Proof.
  intros Hb. induction a as [|c a IH]; [done|].
  rewrite !str_app_cons. simpl. rewrite IH.
  destruct (a +:+ rstrip b) as [|d t] eqn:Ha; [|done].
  destruct a; [by rewrite str_app_nil_l in Ha | by rewrite str_app_cons in Ha].
Qed.

Lemma rstrip_app_space (a b : string) :
  all_space b = true -> rstrip (a +:+ b) = rstrip a.
Proof.
  intros Hb. induction a as [|c a IH].
  - rewrite str_app_nil_l. by apply rstrip_all_space.
  - rewrite str_app_cons. simpl. by rewrite IH.
Qed.

(** What [strip] does to the content of the merged turn: the system block
    and the start of the user content are out of its reach, and when the
    user content is blank it reaches into the closing markup. *)
Lemma strip_merged_content (s u : string) :
  strip (BEGIN_SYS +:+ s +:+ END_SYS +:+ u)
  = BEGIN_SYS +:+ s
    +:+ (if all_space u then newline +:+ "<</SYS>>" else END_SYS +:+ rstrip u).
Proof.
  assert (rstrip (END_SYS +:+ u)
          = if all_space u then newline +:+ "<</SYS>>" else END_SYS +:+ rstrip u)
    as Hend.
  { destruct (all_space u) eqn:Hu.
    - by rewrite rstrip_app_space.
    - by rewrite rstrip_app_nonempty by by apply rstrip_not_all_space. }
  unfold strip.
  change BEGIN_SYS with (String "<" ("<SYS>>" +:+ newline)).
  rewrite str_app_cons. simpl lstrip. rewrite <- str_app_cons.
  rewrite <- (str_app_assoc _ s), rstrip_app_nonempty, Hend, str_app_assoc; [done|].
  rewrite Hend. destruct (all_space u); [done|].
  by change END_SYS with (String "010" ("<</SYS>>" +:+ newline +:+ newline)).
Qed.

Lemma segments_trim_turn (tok : Tokenizer) (ml : MessageList) :
  segments tok ml = segments_with id tok (map trim_turn ml).
Proof.
  unfold segments.
  induction ml as [| x | x y l IH] using pair_ind; [done..|].
  simpl. fold (segments_with strip tok l).
  fold (segments_with id tok (map trim_turn l)). by rewrite IH.
Qed.

(** ** The loop *)

Lemma format_all_app (tok : Tokenizer) (done_ rest : list MessageList)
    (prompts acc : list string) :
  Forall2 (fun ml p => format_message_list tok ml = Return p) done_ prompts ->
  format_all tok (done_ ++ rest) acc = format_all tok rest (acc ++ prompts).
Proof.
  intros H. revert acc.
  induction H as [|ml p done_ prompts Hp _ IH]; intros acc; simpl.
  - by rewrite app_nil_r.
  - rewrite Hp. simpl. rewrite IH. by rewrite <- app_assoc.
Qed.

Lemma format_all_raise (tok : Tokenizer) (rest : list MessageList)
    (acc : list string) (e : exn) :
  format_all tok rest acc = Raise e ->
  exists ml, ml ∈ rest /\ format_message_list tok ml = Raise e.
Proof.
  revert acc. induction rest as [|ml rest IH]; intros acc; [done|]. simpl.
  destruct (format_message_list tok ml) as [p|e'] eqn:Hml; simpl.
  - intros (ml' & Hin & Hml')%IH. exists ml'. split; [by right | done].
  - intros [= ->]. exists ml. split; [by left | done].
Qed.

Lemma format_merged_raise (tok : Tokenizer) (merged : MessageList) (e : exn) :
  merged <> [] ->
  format_merged tok merged = Raise e ->
  e = InvalidRoleOrdering \/ (exists r, e = MissingTrailingUserTurn r /\ r <> user).
Proof.
  intros Hne. unfold format_merged.
  destruct (roles_alternate merged); simpl; [|intros [= <-]; auto].
  unfold getitem_last. destruct (last merged) as [last_msg|] eqn:Hlast.
  - simpl. case_bool_decide; simpl; [done|]. intros [= <-]. eauto.
  - by apply last_None in Hlast.
Qed.

Lemma format_message_list_raise (tok : Tokenizer) (ml : MessageList) (e : exn) :
  format_message_list tok ml = Raise e ->
  e = InvalidRoleOrdering
  \/ (exists r, e = MissingTrailingUserTurn r /\ r <> user)
  \/ (e = list_index_out_of_range
      /\ (ml = [] \/ exists c, ml = [{| role := system; content := c |}])).
Proof.
  unfold format_message_list.
  destruct ml as [|m rest]; [intros [= <-]; auto|].
  unfold merge_system. simpl. case_bool_decide as Hm.
  - destruct rest as [|m1 rest]; simpl.
    + intros [= <-]. right. right. split; [done|]. right.
      exists (content m). destruct m. simpl in *. by subst.
    + intros H. apply format_merged_raise in H; [tauto | done].
  - simpl. intros H. apply format_merged_raise in H; [tauto | done].
Qed.

Lemma convert_singleton (tok : Tokenizer) (ml : MessageList) :
  convert_list_of_message_lists_to_input_prompt [ml] tok
  = bind (format_message_list tok ml) (fun p => Return [p]).
Proof. reflexivity. Qed.

(** ** Sample runs *)

Example strip_sample : strip "  a  b " = "a  b".
Proof. reflexivity. Qed.

Example count_sample : count "aaaa<s>a<s>" "<s>" = 2 /\ count "aaaa" "aa" = 2.
Proof. split; reflexivity. Qed.

Example convert_sample :
  convert_list_of_message_lists_to_input_prompt
    [[ {| role := system; content := "Answer only with emojis" |};
       {| role := user; content := " Who won? " |} ]] sample_tokenizer
  = Return ["<bos>[INST] <<SYS>>" +:+ newline +:+ "Answer only with emojis"
            +:+ newline +:+ "<</SYS>>" +:+ newline +:+ newline
            +:+ " Who won? [/INST] "].
Proof. vm_compute. reflexivity. Qed.

(** ** The conversation system, user, assistant, user *)

(** C1, as stated, fails: the prompt that the specification writes out for
    the conversation system "S", user "U1", assistant "A1", user "U2" has no
    instruction-begin marker after the first sequence-begin marker, and the
    function does put one there. *)
Lemma four_turns_prompt_counterexample :
  convert_list_of_message_lists_to_input_prompt [four_turns] sample_tokenizer
  <> Return ["<bos>" +:+ BEGIN_SYS +:+ "S" +:+ END_SYS +:+ "U1" +:+ END_INST
             +:+ "A1" +:+ "<eos>" +:+ "<bos>" +:+ BEGIN_INST +:+ "U2" +:+ END_INST].
Proof. vm_compute. discriminate. Qed.

(** C1, amended: for every choice of the two tokenizer markers the prompt of
    that conversation is bos, instruction-begin, system-begin, S, system-end,
    U1, instruction-end, A1, eos, bos, instruction-begin, U2,
    instruction-end; with the markers <bos> and <eos> it holds exactly two
    sequence-begin markers and one sequence-end marker. *)
Theorem four_turns_prompt :
  (forall tok,
     convert_list_of_message_lists_to_input_prompt [four_turns] tok
     = Return [bos_token tok +:+ BEGIN_INST +:+ BEGIN_SYS +:+ "S" +:+ END_SYS
               +:+ "U1" +:+ END_INST +:+ "A1" +:+ eos_token tok
               +:+ bos_token tok +:+ BEGIN_INST +:+ "U2" +:+ END_INST])
  /\ exists p,
       convert_list_of_message_lists_to_input_prompt [four_turns] sample_tokenizer
       = Return [p]
       /\ count p "<bos>" = 2 /\ count p "<eos>" = 1.
Proof.
  split.
  - intros tok. rewrite convert_singleton.
    rewrite (well_formed_formats tok four_turns) by done. simpl.
    unfold segments. simpl. rewrite strip_merged_content. simpl.
    by join_flat.
  - eexists. split; [vm_compute; reflexivity|]. split; reflexivity.
Qed.

(** ** Batches *)

(** C2, as stated, fails: in the batch of a good conversation followed by
    one that starts with an assistant turn, the good one formats on its own
    but the call gives no prompt for it. *)
Lemma formats_independently_counterexample : ~ formats_independently.
Proof.
  intros H.
  destruct (H sample_tokenizer
              [[ {| role := user; content := "hi" |} ];
               [ {| role := assistant; content := "x" |} ]]
              0 [ {| role := user; content := "hi" |} ] "<bos>[INST] hi [/INST] ")
    as (prompts & Hrun & _); [done | by vm_compute |].
  vm_compute in Hrun. discriminate.
Qed.

(** C2, amended: the conversations are formatted one after the other, each
    from its own turns alone.  If all of them format, the call returns
    their prompts in order.  If the conversations up to some point format
    and the next one fails, the whole call raises the error of that one,
    whatever comes after it, and no prompt is returned for any
    conversation. *)
Theorem first_malformed_aborts_batch (tok : Tokenizer)
    (before : list MessageList) (prompts : list string) :
  Forall2 (fun ml p => format_message_list tok ml = Return p) before prompts ->
  (before <> [] ->
   convert_list_of_message_lists_to_input_prompt before tok = Return prompts)
  /\ (forall bad after e,
        format_message_list tok bad = Raise e ->
        convert_list_of_message_lists_to_input_prompt (before ++ bad :: after) tok
        = Raise e).
Proof.
  intros Hbefore. split.
  - intros Hne. unfold convert_list_of_message_lists_to_input_prompt.
    assert (exists x, getitem before 0 = Return x) as [x ->].
    { destruct before as [|ml before']; [done | by exists ml]. }
    change (format_all tok before [] = Return prompts).
    rewrite <- (app_nil_r before).
    by rewrite (format_all_app tok _ [] prompts []).
  - intros bad after e Hbad.
    unfold convert_list_of_message_lists_to_input_prompt.
    assert (exists x, getitem (before ++ bad :: after) 0 = Return x) as [x ->].
    { destruct before as [|ml before']; [by exists bad | by exists ml]. }
    change (format_all tok (before ++ bad :: after) [] = Raise e).
    rewrite (format_all_app tok _ _ prompts []) by done.
    simpl. by rewrite Hbad.
Qed.

Lemma first_malformed_aborts_batch_witness :
  Forall2 (fun ml p => format_message_list sample_tokenizer ml = Return p)
    [[ {| role := user; content := "hi" |} ]] ["<bos>[INST] hi [/INST] "]
  /\ convert_list_of_message_lists_to_input_prompt
       [[ {| role := user; content := "hi" |} ];
        [ {| role := assistant; content := "x" |} ];
        [ {| role := user; content := "never looked at" |} ]] sample_tokenizer
     = Raise InvalidRoleOrdering.
Proof.
  assert (Forall2 (fun ml p => format_message_list sample_tokenizer ml = Return p)
            [[ {| role := user; content := "hi" |} ]] ["<bos>[INST] hi [/INST] "])
    as H by (repeat constructor).
  split; [exact H|].
  apply (proj2 (first_malformed_aborts_batch sample_tokenizer _ _ H)
           [ {| role := assistant; content := "x" |} ]
           [[ {| role := user; content := "never looked at" |} ]]).
  reflexivity.
Defined.

(** ** The system merge *)

(** C3: when the first turn is a system turn and another turn follows, the
    two are replaced by one turn that has the role of the second and whose
    content is the system-begin markup, the system content, the system-end
    markup and the content of the second turn, with nothing in between; the
    rest of the conversation is kept, and formatting goes on with this
    list. *)
Theorem system_turn_merged (tok : Tokenizer) (s m : Message)
    (rest : MessageList) :
  role s = system ->
  let merged := {| role := role m;
                   content := BEGIN_SYS +:+ content s +:+ END_SYS +:+ content m |} in
  merge_system (s :: m :: rest) = Return (merged :: rest)
  /\ (role m <> system ->
      format_message_list tok (s :: m :: rest)
      = format_message_list tok (merged :: rest)).
Proof.
  intros Hs merged. split; [by apply merge_system_system|].
  intros Hm. unfold format_message_list.
  rewrite merge_system_system by done.
  by rewrite (merge_system_no_system merged).
Qed.

Lemma system_turn_merged_witness :
  role {| role := system; content := "S" |} = system
  /\ merge_system four_turns
     = Return [ {| role := user;
                   content := "<<SYS>>" +:+ newline +:+ "S" +:+ newline
                              +:+ "<</SYS>>" +:+ newline +:+ newline +:+ "U1" |};
                {| role := assistant; content := "A1" |};
                {| role := user; content := "U2" |} ].
Proof.
  split; [reflexivity|].
  exact (proj1 (system_turn_merged sample_tokenizer
                  {| role := system; content := "S" |}
                  {| role := user; content := "U1" |}
                  [ {| role := assistant; content := "A1" |};
                    {| role := user; content := "U2" |} ] eq_refl)).
Defined.

(** ** The two checks *)

(** C4: when, after the merge, some turn at an even index is not a user turn
    or some turn at an odd index is not an assistant turn, formatting the
    conversation raises the invalid-role-ordering error, and so does the
    call on a batch in which this conversation comes first. *)
Theorem invalid_role_ordering_raised (tok : Tokenizer)
    (ml merged : MessageList) (after : list MessageList) :
  merge_system ml = Return merged ->
  ordering_violated merged ->
  format_message_list tok ml = Raise InvalidRoleOrdering
  /\ convert_list_of_message_lists_to_input_prompt (ml :: after) tok
     = Raise InvalidRoleOrdering.
Proof.
  intros Hmerge Hbad.
  assert (format_message_list tok ml = Raise InvalidRoleOrdering) as Hml.
  { unfold format_message_list. rewrite Hmerge. simpl. unfold format_merged.
    destruct (roles_alternate merged) eqn:Halt; [|done].
    by apply roles_alternate_not_violated in Halt. }
  split; [done|].
  unfold convert_list_of_message_lists_to_input_prompt. simpl. by rewrite Hml.
Qed.

(** The conversation user, user. *)
Lemma invalid_role_ordering_raised_witness :
  let two_users := [ {| role := user; content := "U1" |};
                     {| role := user; content := "U2" |} ] in
  (merge_system two_users = Return two_users /\ ordering_violated two_users)
  /\ format_message_list sample_tokenizer two_users = Raise InvalidRoleOrdering
  /\ convert_list_of_message_lists_to_input_prompt [two_users] sample_tokenizer
     = Raise InvalidRoleOrdering.
Proof.
  intros two_users.
  assert (ordering_violated two_users) as Hbad.
  { exists 1, {| role := user; content := "U2" |}.
    split; [reflexivity|]. right. split; [reflexivity | discriminate]. }
  split; [split; [reflexivity | exact Hbad]|].
  exact (invalid_role_ordering_raised sample_tokenizer two_users two_users []
           eq_refl Hbad).
Defined.

(** C5, as stated, fails: a conversation that is a single assistant turn
    does not end in a user turn, and it is rejected for its role ordering,
    which is checked first. *)
Lemma last_not_user_counterexample : ~ last_not_user_gives_missing_trailing.
Proof.
  intros H.
  specialize (H sample_tokenizer [ {| role := assistant; content := "A" |} ]
                [ {| role := assistant; content := "A" |} ]
                {| role := assistant; content := "A" |} eq_refl eq_refl).
  simpl in H. specialize (H ltac:(discriminate)).
  vm_compute in H. discriminate.
Qed.

(** C5, amended: when the conversation passes the role-ordering check and
    its last turn, after the merge, is not a user turn, formatting raises the
    missing-trailing-user-turn error, which names the role that was sent. *)
Theorem missing_trailing_user_turn_raised (tok : Tokenizer)
    (ml merged : MessageList) (last_msg : Message) :
  merge_system ml = Return merged ->
  ~ ordering_violated merged ->
  last merged = Some last_msg ->
  role last_msg <> user ->
  format_message_list tok ml = Raise (MissingTrailingUserTurn (role last_msg)).
Proof.
  intros Hmerge Halt%roles_alternate_not_violated Hlast Hrole.
  unfold format_message_list. rewrite Hmerge. simpl. unfold format_merged.
  rewrite Halt. simpl. unfold getitem_last. rewrite Hlast. simpl.
  by rewrite bool_decide_eq_false_2.
Qed.

Lemma missing_trailing_user_turn_raised_witness :
  let ml := [ {| role := user; content := "U" |};
              {| role := assistant; content := "A" |} ] in
  (merge_system ml = Return ml /\ ~ ordering_violated ml
   /\ last ml = Some {| role := assistant; content := "A" |}
   /\ assistant <> user)
  /\ format_message_list sample_tokenizer ml
     = Raise (MissingTrailingUserTurn assistant).
Proof.
  intros ml.
  assert (~ ordering_violated ml) as Halt
    by (apply roles_alternate_not_violated; reflexivity).
  assert (assistant <> user) as Hne by discriminate.
  split; [split_and!; [reflexivity | exact Halt | reflexivity | exact Hne]|].
  exact (missing_trailing_user_turn_raised sample_tokenizer ml ml
           {| role := assistant; content := "A" |} eq_refl Halt eq_refl Hne).
Defined.

(** ** The prompt of a well-formed conversation *)

Lemma trim_turn_placed (l : MessageList) :
  Forall2 (fun m m' => role m' = role m /\ trimmed_of (content m) (content m'))
    l (map trim_turn l).
Proof.
  induction l as [|m l IH]; simpl; constructor; [|done].
  split; [done|]. apply strip_trimmed.
Qed.

(** C6: the prompt of a well-formed conversation is, from the turns as they
    stand after the system merge, one segment bos, instruction-begin,
    trimmed user content, instruction-end, trimmed assistant content, eos per
    (user, assistant) pair, in order, followed by the segment bos,
    instruction-begin, trimmed content, instruction-end of the trailing user
    turn, with nothing between the segments and no eos at the end.  Trimmed
    means: what is placed for a turn is its content without its leading and
    trailing whitespace and with everything in between kept as it is. *)
Theorem well_formed_prompt_is_segments (tok : Tokenizer) (ml : MessageList) :
  well_formed ml = true ->
  format_message_list tok ml = Return (segments tok (after_merge ml))
  /\ convert_list_of_message_lists_to_input_prompt [ml] tok
     = Return [segments tok (after_merge ml)]
  /\ exists placed,
       Forall2 (fun m m' => role m' = role m
                            /\ trimmed_of (content m) (content m'))
         (after_merge ml) placed
       /\ format_message_list tok ml = Return (segments_with id tok placed).
Proof.
  intros Hwf. rewrite convert_singleton.
  rewrite (well_formed_formats tok ml Hwf). split_and!; [done..|].
  exists (map trim_turn (after_merge ml)).
  split; [apply trim_turn_placed | by rewrite segments_trim_turn].
Qed.

Lemma well_formed_prompt_is_segments_witness :
  well_formed [ {| role := user; content := "  hi  " |};
                {| role := assistant; content := " yo" |};
                {| role := user; content := "so  ?  " |} ] = true
  /\ format_message_list sample_tokenizer
       [ {| role := user; content := "  hi  " |};
         {| role := assistant; content := " yo" |};
         {| role := user; content := "so  ?  " |} ]
     = Return "<bos>[INST] hi [/INST] yo<eos><bos>[INST] so  ? [/INST] ".
Proof.
  split; [reflexivity|].
  exact (proj1 (well_formed_prompt_is_segments sample_tokenizer
                  [ {| role := user; content := "  hi  " |};
                    {| role := assistant; content := " yo" |};
                    {| role := user; content := "so  ?  " |} ] eq_refl)).
Defined.

(** ** Trimming *)

(** C7, as stated, fails: for a system turn followed by a user turn whose
    content starts with a blank, that blank is still in the prompt. *)
Lemma every_turn_trimmed_counterexample :
  well_formed blank_before_user = true
  /\ format_message_list sample_tokenizer blank_before_user
     <> Return (every_turn_trimmed sample_tokenizer blank_before_user).
Proof. split; [reflexivity|]. vm_compute. discriminate. Qed.

(** C7, amended: in the prompt of a well-formed conversation, every turn as
    it stands after the system merge has the leading and trailing whitespace
    of its content removed and everything in between kept.  For a
    conversation with no system turn these are its own turns.  For one with
    a system turn the first of them is the merged turn, trimmed as one
    string: the system content and the start of the user content are kept
    as they are, and only the whitespace at the end of the user content is
    removed, together with the closing newlines of the system markup when
    the user content is blank. *)
Theorem trimmed_after_merge (tok : Tokenizer) (ml : MessageList) :
  well_formed ml = true ->
  format_message_list tok ml
  = Return (segments_with id tok (map trim_turn (after_merge ml)))
  /\ (forall m, m ∈ after_merge ml -> trimmed_of (content m) (strip (content m)))
  /\ (forall m rest, ml = m :: rest -> role m <> system ->
        after_merge ml = ml
        /\ format_message_list tok ml = Return (every_turn_trimmed tok ml))
  /\ (forall s u rest, ml = s :: u :: rest -> role s = system ->
        exists merged,
          after_merge ml = merged :: rest
          /\ strip (content merged)
             = BEGIN_SYS +:+ content s
               +:+ (if all_space (content u) then newline +:+ "<</SYS>>"
                    else END_SYS +:+ rstrip (content u))).
Proof.
  intros Hwf.
  assert (format_message_list tok ml
          = Return (segments_with id tok (map trim_turn (after_merge ml)))) as Hfmt.
  { rewrite (well_formed_formats tok ml Hwf). by rewrite segments_trim_turn. }
  split_and!; [done | intros; apply strip_trimmed | |].
  - intros m rest -> Hm.
    assert (after_merge (m :: rest) = m :: rest) as Hsame.
    { simpl. destruct rest; by rewrite ?bool_decide_eq_false_2. }
    split; [done|]. rewrite Hfmt, Hsame. unfold every_turn_trimmed.
    do 2 f_equal. simpl map.
    simpl. destruct rest; by rewrite ?bool_decide_eq_false_2.
  - intros s u rest -> Hs. simpl. rewrite bool_decide_eq_true_2 by done.
    eexists. split; [done|]. simpl. apply strip_merged_content.
Qed.

Lemma trimmed_after_merge_witness :
  well_formed blank_before_user = true
  /\ format_message_list sample_tokenizer blank_before_user
     = Return ("<bos>[INST] <<SYS>>" +:+ newline +:+ "S" +:+ newline
               +:+ "<</SYS>>" +:+ newline +:+ newline +:+ " U [/INST] ").
Proof.
  split; [reflexivity|].
  exact (proj1 (trimmed_after_merge sample_tokenizer blank_before_user eq_refl)).
Defined.

(** ** Failure modes *)

(** C8, as stated, fails: a conversation that is a single system turn makes
    the call raise an IndexError, which is neither of the two errors of the
    taxonomy. *)
Lemma only_format_errors_counterexample : ~ only_format_errors.
Proof.
  intros H.
  destruct (H sample_tokenizer [[ {| role := system; content := "S" |} ]]
              list_index_out_of_range eq_refl) as [He | [r He]].
  - discriminate He.
  - destruct r; discriminate He.
Qed.

(** C8, amended: when the call fails on a batch of conversations, the error
    is the invalid-role-ordering error, or the missing-trailing-user-turn
    error for a role other than user, or an IndexError; the IndexError is
    raised only when the batch is empty or holds a conversation that is
    empty or is a single system turn. *)
Theorem failure_modes (tok : Tokenizer) (batch : list MessageList) (e : exn) :
  convert_list_of_message_lists_to_input_prompt batch tok = Raise e ->
  e = InvalidRoleOrdering
  \/ (exists r, e = MissingTrailingUserTurn r /\ r <> user)
  \/ (e = list_index_out_of_range
      /\ (batch = []
          \/ exists ml, ml ∈ batch
               /\ (ml = [] \/ exists c, ml = [{| role := system; content := c |}]))).
Proof.
  unfold convert_list_of_message_lists_to_input_prompt.
  destruct batch as [|ml0 batch]; [intros [= <-]; auto|].
  intros H. change (format_all tok (ml0 :: batch) [] = Raise e) in H.
  apply format_all_raise in H as (ml & Hin & Hml).
  apply format_message_list_raise in Hml as [?|[?|[? ?]]]; eauto 10.
Qed.

Lemma failure_modes_witness :
  convert_list_of_message_lists_to_input_prompt
    [[ {| role := user; content := "hi" |} ]; []] sample_tokenizer
  = Raise list_index_out_of_range
  /\ (list_index_out_of_range = InvalidRoleOrdering
      \/ (exists r, list_index_out_of_range = MissingTrailingUserTurn r /\ r <> user)
      \/ (list_index_out_of_range = list_index_out_of_range
          /\ ([[ {| role := user; content := "hi" |} ]; []] = []
              \/ exists ml, ml ∈ [[ {| role := user; content := "hi" |} ]; []]
                   /\ (ml = []
                       \/ exists c, ml = [{| role := system; content := c |}])))).
Proof.
  split; [reflexivity|].
  exact (failure_modes sample_tokenizer
           [[ {| role := user; content := "hi" |} ]; []]
           list_index_out_of_range eq_refl).
Defined.

(** ** The empty batch *)

(** C10: on an empty list of conversations the call raises an IndexError
    and returns no list.  In the run on objects the error comes from the
    second [print], whose argument is the first element of the batch: one
    line has been printed and nothing has been formatted. *)
Theorem empty_batch_raises_index_error :
  (forall tok,
     convert_list_of_message_lists_to_input_prompt [] tok
     = Raise (IndexError "list index out of range"))
  /\ (forall budget tok,
        Store.convert_list_of_message_lists_to_input_prompt budget
          (Store.VRef 0) tok
          {| Store.heap := [Store.OList []]; Store.stdout := [] |}
        = Some ({| Store.heap := [Store.OList []; Store.OList []];
                   Store.stdout := ["<class 'list'>"] |},
                Raise (IndexError "list index out of range"))).
Proof. split; reflexivity. Qed.

(** ** Runs on objects: which objects a program can change *)

Module StoreFacts.
Import Store.
Local Open Scope prog_scope.

Lemma framed_ret {A} P (a : A) : framed P (ret a).
Proof. intros st st' r [= <- <-]. auto. Qed.

Lemma framed_raise {A} P e : framed P (@raise A e).
Proof. intros st st' r [= <- <-]. auto. Qed.

Lemma framed_lift {A} P (o : outcome A) : framed P (lift o).
Proof. intros st st' r [= <- <-]. auto. Qed.

Lemma framed_bind {A B} P (c : prog A) (k : A -> prog B) :
  framed P c -> (forall a, framed P (k a)) -> framed P (bind c k).
Proof.
  intros Hc Hk st st' r. unfold bind.
  destruct (c st) as [[st1 [a|e]]|] eqn:Hrun; [| |done].
  - intros Hrun' l o Hl Ho. eapply Hk; eauto.
  - intros [= <- <-] l o Hl Ho. eapply Hc; eauto.
Qed.

Lemma framed_alloc P o : framed P (alloc o).
Proof.
  intros st st' r [= <- <-] l o' _ Hl. simpl. by apply lookup_app_l_Some.
Qed.

Lemma framed_load_list P v : framed P (load_list v).
Proof.
  intros st st' r. unfold load_list.
  destruct v as [|l']; [by intros [= <- <-]|].
  destruct (heap st !! l') as [[]|]; by intros [= <- <-].
Qed.

Lemma framed_load_dict P v : framed P (load_dict v).
Proof.
  intros st st' r. unfold load_dict.
  destruct v as [|l']; [by intros [= <- <-]|].
  destruct (heap st !! l') as [[]|]; by intros [= <- <-].
Qed.

Lemma framed_type_of P v : framed P (type_of v).
Proof.
  intros st st' r. unfold type_of.
  destruct v as [|l']; [by intros [= <- <-]|].
  destruct (heap st !! l') as [[]|]; by intros [= <- <-].
Qed.

Lemma framed_print P line : framed P (print line).
Proof. by intros st st' r [= <- <-]. Qed.

(** [append] changes the list it is called on and nothing else. *)
Lemma framed_append (P : loc -> Prop) target v :
  (forall l, target = VRef l -> P l) -> framed P (append target v).
Proof.
  intros HP st st' r. unfold append.
  destruct target as [|l']; [by intros [= <- <-]|].
  destruct (heap st !! l') as [[|items]|]; try by intros [= <- <-].
  intros [= <- <-] l o Hl Ho. simpl.
  rewrite list_lookup_insert_ne; [done|]. intros ->. by apply Hl, HP.
Qed.

Lemma framed_comprehension {A B} P (f : A -> prog B) xs :
  (forall x, framed P (f x)) -> framed P (comprehension f xs).
Proof.
  intros Hf. induction xs as [|x xs IH]; simpl.
  - apply framed_ret.
  - apply framed_bind; [done|]. intros y.
    apply framed_bind; [done|]. intros ys. apply framed_ret.
Qed.

Lemma framed_for_each P budget iterable i body :
  (forall x, framed P (body x)) -> framed P (for_each budget iterable i body).
Proof.
  intros Hbody. revert i. induction budget as [|budget IH]; intros i; simpl.
  - by intros st st' r.
  - apply framed_bind; [apply framed_load_list|]. intros items.
    destruct (items !! i); [|apply framed_ret].
    apply framed_bind; [done|]. intros _. apply IH.
Qed.

Ltac framed :=
  repeat first
    [ apply framed_ret | apply framed_raise | apply framed_lift
    | apply framed_alloc | apply framed_load_list | apply framed_load_dict
    | apply framed_type_of | apply framed_print
    | apply framed_comprehension; intros ?
    | apply framed_bind; [|intros ?]
    | match goal with |- framed _ (if ?b then _ else _) => destruct b end
    | progress unfold subscript, subscript_last, get_role, get_content,
        exchange, merge_system, roles_alternate, format_merged,
        format_message_list ].

(** Formatting one conversation allocates and reads; it writes to no
    object that exists. *)
Lemma framed_format_message_list P tok v : framed P (format_message_list tok v).
Proof. framed. Qed.

Lemma framed_loop_body (P : loc -> Prop) tok input_prompts v :
  (forall l, input_prompts = VRef l -> P l) ->
  framed P (loop_body tok input_prompts v).
Proof.
  intros HP. unfold loop_body.
  apply framed_bind; [apply framed_format_message_list|].
  intros p. by apply framed_append.
Qed.

(** The call changes no object that existed before it: the only list it
    appends to is the one it has created itself. *)
Lemma convert_preserves_objects budget v tok st st' r :
  convert_list_of_message_lists_to_input_prompt budget v tok st = Some (st', r) ->
  preserved (heap st) (heap st').
Proof.
  unfold convert_list_of_message_lists_to_input_prompt.
  unfold bind at 1. simpl.
  set (st1 := {| heap := heap st ++ [OList []]; stdout := stdout st |}).
  intros Hrun l o Hl.
  assert (framed (fun l' => l' = length (heap st))
            (t <- type_of v ;;
             print t ;;;
             first <- subscript v 0 ;;
             t0 <- type_of first ;;
             print t0 ;;;
             for_each budget v 0 (loop_body tok (VRef (length (heap st)))) ;;;
             ret (VRef (length (heap st))))) as Hframed.
  { framed. apply framed_for_each. intros x. apply framed_loop_body.
    by intros ? [= <-]. }
  eapply (Hframed st1 st' r Hrun).
  - apply lookup_lt_Some in Hl. lia.
  - simpl. by apply lookup_app_l_Some.
Qed.

End StoreFacts.

(** ** Runs on objects: agreement with the value-level embedding *)

Module Refinement.

Lemma run_bind {A B} (c : Store.prog A) (k : A -> Store.prog B) st st' o :
  c st = Some (st', o) ->
  Store.bind c k st
  = match o with
    | Return a => k a st'
    | Raise e => Some (st', Raise e)
    end.
Proof. intros H. unfold Store.bind. rewrite H. by destruct o. Qed.

Ltac run_step H := erewrite run_bind by (eapply H; eauto); cbv beta iota.

(** *** Decoding is stable under growth of the heap *)

Lemma decode_message_preserved h h' v m :
  Store.preserved h h' ->
  Store.decode_message h v = Some m -> Store.decode_message h' v = Some m.
Proof.
  intros Hpre. destruct v as [|l]; [done|]. simpl.
  destruct (h !! l) as [[m'|]|] eqn:Hl; try done.
  intros [= ->]. by rewrite (Hpre _ _ Hl).
Qed.

Lemma decode_items_preserved h h' v items :
  Store.preserved h h' ->
  Store.decode_items h v = Some items -> Store.decode_items h' v = Some items.
Proof.
  intros Hpre. destruct v as [|l]; [done|]. simpl.
  destruct (h !! l) as [[|items']|] eqn:Hl; try done.
  intros [= ->]. by rewrite (Hpre _ _ Hl).
Qed.

Lemma decode_conversation_inv h v ml :
  Store.decode_conversation h v = Some ml
  <-> exists items,
        Store.decode_items h v = Some items
        /\ Forall2 (fun x m => Store.decode_message h x = Some m) items ml.
Proof.
  unfold Store.decode_conversation. rewrite bind_Some.
  by setoid_rewrite mapM_Some.
Qed.

Lemma decode_batch_inv h v batch :
  Store.decode_batch h v = Some batch
  <-> exists items,
        Store.decode_items h v = Some items
        /\ Forall2 (fun x ml => Store.decode_conversation h x = Some ml)
             items batch.
Proof.
  unfold Store.decode_batch. rewrite bind_Some.
  by setoid_rewrite mapM_Some.
Qed.

Lemma decode_prompts_inv h v prompts :
  Store.decode_prompts h v = Some prompts
  <-> Store.decode_items h v = Some (Store.VStr <$> prompts).
Proof.
  unfold Store.decode_prompts. rewrite bind_Some. split.
  - intros (items & Hitems & Hall%mapM_Some). rewrite Hitems. f_equal.
    clear Hitems.
    induction Hall as [|[s|l] p items prompts Hs _ IH]; simplify_eq/=; by f_equal.
  - intros H. eexists. split; [done|]. apply mapM_Some. clear H.
    induction prompts; simpl; by constructor.
Qed.

Lemma decode_conversation_preserved h h' v ml :
  Store.preserved h h' ->
  Store.decode_conversation h v = Some ml ->
  Store.decode_conversation h' v = Some ml.
Proof.
  intros Hpre. rewrite !decode_conversation_inv.
  intros (items & Hitems & Hall). exists items.
  split; [by eapply decode_items_preserved|].
  eapply Forall2_impl; [done|]. eauto using decode_message_preserved.
Qed.

Lemma decode_batch_preserved h h' v batch :
  Store.preserved h h' ->
  Store.decode_batch h v = Some batch -> Store.decode_batch h' v = Some batch.
Proof.
  intros Hpre. rewrite !decode_batch_inv.
  intros (items & Hitems & Hall). exists items.
  split; [by eapply decode_items_preserved|].
  eapply Forall2_impl; [done|]. eauto using decode_conversation_preserved.
Qed.

Lemma preserved_app h ext : Store.preserved h (h ++ ext).
Proof. intros l o Hl. by apply lookup_app_l_Some. Qed.

(** *** Reads *)

Section Reads.
Variable st : Store.state.
Let h := Store.heap st.

Lemma run_load_list v items :
  Store.decode_items h v = Some items ->
  Store.load_list v st = Some (st, Return items).
Proof.
  subst h. destruct v as [|l]; [done|]. simpl.
  destruct (Store.heap st !! l) as [[|items']|]; try done. by intros [= ->].
Qed.

Lemma run_load_dict v m :
  Store.decode_message h v = Some m ->
  Store.load_dict v st = Some (st, Return m).
Proof.
  subst h. destruct v as [|l]; [done|]. simpl.
  destruct (Store.heap st !! l) as [[m'|]|]; try done. by intros [= ->].
Qed.

Lemma run_subscript v items i :
  Store.decode_items h v = Some items ->
  Store.subscript v i st = Some (st, getitem items i).
Proof.
  intros H. unfold Store.subscript. run_step run_load_list. done.
Qed.

Lemma run_subscript_last v items :
  Store.decode_items h v = Some items ->
  Store.subscript_last v st = Some (st, getitem_last items).
Proof.
  intros H. unfold Store.subscript_last. run_step run_load_list. done.
Qed.

Lemma run_get_role v m :
  Store.decode_message h v = Some m ->
  Store.get_role v st = Some (st, Return (role m)).
Proof. intros H. unfold Store.get_role. run_step run_load_dict. done. Qed.

Lemma run_get_content v m :
  Store.decode_message h v = Some m ->
  Store.get_content v st = Some (st, Return (content m)).
Proof. intros H. unfold Store.get_content. run_step run_load_dict. done. Qed.

Lemma run_comprehension {A B C} (f : A -> Store.prog C) (g : B -> C)
    (rel : A -> B -> Prop) xs ys :
  (forall x y, rel x y -> f x st = Some (st, Return (g y))) ->
  Forall2 rel xs ys ->
  Store.comprehension f xs st = Some (st, Return (map g ys)).
Proof.
  intros Hf Hall. induction Hall as [|x y xs ys Hxy _ IH]; [done|].
  simpl. run_step Hf. run_step IH. done.
Qed.

Lemma run_exchange bos eos pv pm :
  Store.decode_message h pv.1 = Some pm.1 ->
  Store.decode_message h pv.2 = Some pm.2 ->
  Store.exchange bos eos pv st = Some (st, Return (exchange bos eos pm)).
Proof.
  intros H1 H2. unfold Store.exchange.
  run_step run_get_content. run_step run_get_content. done.
Qed.

End Reads.

(** *** Slices of related lists *)

Lemma every_other_cons {A} (x : A) l :
  every_other (x :: l) = x :: every_other_from1 l.
Proof. by destruct l. Qed.

Lemma Forall2_every_other {A B} (R : A -> B -> Prop) l k :
  Forall2 R l k ->
  Forall2 R (every_other l) (every_other k)
  /\ Forall2 R (every_other_from1 l) (every_other_from1 k).
Proof.
  induction 1 as [|x y l k Hxy _ [IH0 IH1]]; [by split|].
  rewrite !every_other_cons. split; [by constructor|].
  unfold every_other_from1. simpl. by rewrite !drop_0.
Qed.

Lemma Forall2_zip_pairs {A B} (R : A -> B -> Prop) l1 k1 l2 k2 :
  Forall2 R l1 k1 -> Forall2 R l2 k2 ->
  Forall2 (fun p q => R p.1 q.1 /\ R p.2 q.2) (zip l1 l2) (zip k1 k2).
Proof.
  intros H1. revert l2 k2.
  induction H1 as [|x y l1 k1 Hxy _ IH]; intros l2 k2 H2; [constructor|].
  destruct H2 as [|x' y' l2 k2 Hxy' H2]; simpl; constructor; auto.
Qed.

Lemma forallb_map_role (P : Role -> bool) (ml : MessageList) :
  forallb P (map role ml) = forallb (fun msg => P (role msg)) ml.
Proof. induction ml as [|m ml IH]; simpl; by rewrite ?IH. Qed.

(** *** The loop body *)

Section Body.
Variable tok : Tokenizer.

Lemma run_roles_alternate st v ml :
  Store.decode_conversation (Store.heap st) v = Some ml ->
  Store.roles_alternate v st = Some (st, Return (roles_alternate ml)).
Proof.
  intros (items & Hitems & Hall)%decode_conversation_inv.
  destruct (Forall2_every_other _ _ _ Hall) as [Hev Hodd].
  unfold Store.roles_alternate, roles_alternate.
  run_step run_load_list.
  erewrite run_bind
    by (eapply (run_comprehension st _ role); [apply run_get_role | exact Hev]).
  cbv beta iota. rewrite forallb_map_role.
  destruct (forallb _ (every_other ml)); [|done].
  run_step run_load_list.
  erewrite run_bind
    by (eapply (run_comprehension st _ role); [apply run_get_role | exact Hodd]).
  cbv beta iota. by rewrite forallb_map_role.
Qed.

Lemma run_format_merged st v ml :
  Store.decode_conversation (Store.heap st) v = Some ml ->
  Store.format_merged tok v st = Some (st, format_merged tok ml).
Proof.
  intros Hdec.
  pose proof Hdec as (items & Hitems & Hall)%decode_conversation_inv.
  destruct (Forall2_every_other _ _ _ Hall) as [Hev Hodd].
  unfold Store.format_merged, format_merged.
  run_step run_roles_alternate.
  destruct (roles_alternate ml); [|done]. cbn [negb].
  run_step run_load_list. run_step run_load_list.
  erewrite run_bind
    by (eapply (run_comprehension st _
                  (exchange (bos_token tok) (eos_token tok)));
        [|exact (Forall2_zip_pairs _ _ _ _ _ Hev Hodd)];
        intros pv pm [H1 H2]; by apply run_exchange).
  cbv beta iota.
  pose proof (Forall2_last _ _ _ Hall) as Hlast.
  run_step run_subscript_last. unfold getitem_last.
  destruct (last items) as [last_v|] eqn:Hlast_v,
           (last ml) as [last_msg|] eqn:Hlast_msg;
    inversion Hlast as [? ? Hdec_last|]; subst; [|done].
  simpl. run_step run_get_role.
  destruct (bool_decide (role last_msg = user)); cbn [negb].
  - run_step run_subscript_last. unfold getitem_last. rewrite Hlast_v.
    run_step run_get_content. done.
  - run_step run_subscript_last. unfold getitem_last. rewrite Hlast_v.
    run_step run_get_role. done.
Qed.

(** The rebinding of [message_list] only adds objects: the merged dict
    and the new list. *)
Lemma run_merge_system h out v ml :
  Store.decode_conversation h v = Some ml ->
  exists ext r,
    Store.merge_system v {| Store.heap := h; Store.stdout := out |}
    = Some ({| Store.heap := h ++ ext; Store.stdout := out |}, r)
    /\ match r, merge_system ml with
       | Return v', Return ml' =>
           Store.decode_conversation (h ++ ext) v' = Some ml'
       | Raise e, Raise e' => e = e'
       | _, _ => False
       end.
Proof.
  intros Hdec.
  pose proof Hdec as (items & Hitems & Hall)%decode_conversation_inv.
  set (st := {| Store.heap := h; Store.stdout := out |}).
  unfold Store.merge_system, merge_system.
  run_step run_subscript.
  destruct Hall as [|v0 m0 items ml H0 Hall].
  { exists [], (Raise list_index_out_of_range). by rewrite app_nil_r. }
  simpl. run_step run_get_role.
  destruct (bool_decide (role m0 = system)); cycle 1.
  { exists [], (Return v). by rewrite app_nil_r. }
  run_step run_subscript. simpl. run_step run_get_content.
  run_step run_subscript.
  destruct Hall as [|v1 m1 items ml H1 Hall].
  { exists [], (Raise list_index_out_of_range). by rewrite app_nil_r. }
  simpl. run_step run_get_content. run_step run_subscript. simpl.
  run_step run_get_role.
  set (merged := {| role := role m1;
                    content := join [BEGIN_SYS; content m0; END_SYS; content m1] |}).
  unfold Store.bind at 1, Store.alloc at 1. subst st.
  cbn [Store.heap Store.stdout].
  set (st1 := {| Store.heap := h ++ [Store.ODict merged]; Store.stdout := out |}).
  assert (Store.decode_items (Store.heap st1) v = Some (v0 :: v1 :: items))
    as Hitems1 by (eapply decode_items_preserved, Hitems; apply preserved_app).
  run_step run_load_list. unfold Store.alloc. subst st1. simpl.
  exists [Store.ODict merged;
          Store.OList (Store.VRef (length h) :: items)],
    (Return (Store.VRef (length (h ++ [Store.ODict merged])))).
  rewrite <- app_assoc. simpl. split; [done|].
  apply decode_conversation_inv.
  exists (Store.VRef (length h) :: items). split.
  - simpl. rewrite length_app. simpl.
    rewrite (lookup_app_r h) by lia.
    by replace (length h + 1 - length h) with 1 by lia.
  - constructor.
    + simpl. rewrite (lookup_app_r h) by lia.
      by replace (length h - length h) with 0 by lia.
    + eapply Forall2_impl; [exact Hall|].
      intros x m. apply decode_message_preserved, preserved_app.
Qed.

Lemma run_format_message_list h out v ml :
  Store.decode_conversation h v = Some ml ->
  exists ext,
    Store.format_message_list tok v {| Store.heap := h; Store.stdout := out |}
    = Some ({| Store.heap := h ++ ext; Store.stdout := out |},
            format_message_list tok ml).
Proof.
  intros Hdec.
  destruct (run_merge_system h out v ml Hdec) as (ext & r & Hrun & Hr).
  exists ext. unfold Store.format_message_list, format_message_list.
  rewrite (run_bind _ _ _ _ _ Hrun).
  destruct r as [v'|e], (merge_system ml) as [ml'|e']; try done.
  - simpl. by apply run_format_merged.
  - by subst.
Qed.

End Body.

(** *** The loop *)

Lemma for_each_unfold budget iterable i body :
  Store.for_each (S budget) iterable i body
  = Store.bind (Store.load_list iterable) (fun items =>
      match items !! i with
      | None => Store.ret tt
      | Some x =>
          Store.bind (body x)
            (fun _ => Store.for_each budget iterable (S i) body)
      end).
Proof. reflexivity. Qed.

Lemma run_type_of_list st v items :
  Store.decode_items (Store.heap st) v = Some items ->
  Store.type_of v st = Some (st, Return "<class 'list'>").
Proof.
  destruct v as [|l]; [done|]. simpl.
  by destruct (Store.heap st !! l) as [[|items']|].
Qed.

Lemma preserved_trans h1 h2 h3 :
  Store.preserved h1 h2 -> Store.preserved h2 h3 -> Store.preserved h1 h3.
Proof. intros H12 H23 l o Hl. auto. Qed.

(** Appending to a list that lies beyond [h0] leaves [h0] as it is. *)
Lemma preserved_insert_beyond h0 h ip o :
  length h0 <= ip -> Store.preserved h0 h -> Store.preserved h0 (<[ip := o]> h).
Proof.
  intros Hip Hpre l o' Hl. rewrite list_lookup_insert_ne; [by apply Hpre|].
  apply lookup_lt_Some in Hl. lia.
Qed.

Section Loop.
Variable tok : Tokenizer.
Variables (h0 : list Store.object) (v : Store.value).
Variables (items : list Store.value) (batch : list MessageList).
Variable ip : nat.
Hypothesis Hitems : Store.decode_items h0 v = Some items.
Hypothesis Hall :
  Forall2 (fun x ml => Store.decode_conversation h0 x = Some ml) items batch.
Hypothesis Hip : length h0 <= ip.

Lemma run_for_each n : forall i h out acc,
  i + n = length batch ->
  Store.preserved h0 h ->
  h !! ip = Some (Store.OList (Store.VStr <$> acc)) ->
  exists h' r,
    Store.for_each (S n) v i (Store.loop_body tok (Store.VRef ip))
      {| Store.heap := h; Store.stdout := out |}
    = Some ({| Store.heap := h'; Store.stdout := out |}, r)
    /\ Store.preserved h0 h'
    /\ match format_all tok (drop i batch) acc with
       | Return prompts =>
           r = Return tt
           /\ h' !! ip = Some (Store.OList (Store.VStr <$> prompts))
       | Raise e => r = Raise e
       end.
Proof.
  pose proof (Forall2_length _ _ _ Hall) as Hlen.
  induction n as [|n IH]; intros i h out acc Hin Hpre Hacc;
    rewrite for_each_unfold;
    (erewrite run_bind
       by (apply run_load_list; eapply decode_items_preserved, Hitems; done));
    cbv beta iota.
  - rewrite lookup_ge_None_2 by lia. rewrite drop_ge by lia. simpl.
    by exists h, (Return tt).
  - destruct (lookup_lt_is_Some_2 batch i) as [ml Hml]; [lia|].
    destruct (Forall2_lookup_r _ _ _ _ _ Hall Hml) as (x & Hx & Hdec).
    rewrite Hx. rewrite (drop_S _ _ _ Hml). simpl format_all.
    apply (decode_conversation_preserved _ h) in Hdec; [|done].
    destruct (run_format_message_list tok h out x ml Hdec) as [ext Hrun].
    unfold Store.loop_body at 1. unfold Store.bind at 1.
    rewrite (run_bind _ _ _ _ _ Hrun).
    destruct (format_message_list tok ml) as [p|e]; simpl bind.
    + unfold Store.append. cbn [Store.heap Store.stdout].
      rewrite (lookup_app_l_Some _ _ _ _ Hacc).
      destruct (IH (S i) (<[ip := Store.OList ((Store.VStr <$> acc)
                                                 ++ [Store.VStr p])]> (h ++ ext))
                   out (acc ++ [p])) as (h' & r & Hloop & Hpre' & Hres).
      * lia.
      * apply preserved_insert_beyond; [done|].
        eapply preserved_trans; [done | apply preserved_app].
      * rewrite fmap_app. apply list_lookup_insert_eq.
        eapply lookup_lt_Some, lookup_app_l_Some, Hacc.
      * exists h', r. by rewrite Hloop.
    + exists (h ++ ext), (Raise e). split_and!; [done| |done].
      eapply preserved_trans; [done | apply preserved_app].
Qed.

End Loop.

End Refinement.

(** ** The objects of the caller *)

(** C9: the call changes no object that existed before it.  Started on a
    heap in which the argument denotes a batch of conversations, it comes to
    an end, with a return or a raise that is the one of the value-level run;
    every object of the heap before the call is still there and unchanged,
    so the argument still denotes the same batch, with the same turns, roles
    and contents.  The same holds for a run that ends under any other
    iteration budget. *)
Theorem input_batch_not_mutated (tok : Tokenizer) (st : Store.state)
    (v : Store.value) (batch : list MessageList) :
  Store.decode_batch (Store.heap st) v = Some batch ->
  (exists st' r,
     Store.convert_list_of_message_lists_to_input_prompt
       (S (length batch)) v tok st = Some (st', r)
     /\ Store.preserved (Store.heap st) (Store.heap st')
     /\ Store.decode_batch (Store.heap st') v = Some batch
     /\ Store.denotes (Store.heap st') r
          (convert_list_of_message_lists_to_input_prompt batch tok))
  /\ (forall budget st' r,
        Store.convert_list_of_message_lists_to_input_prompt budget v tok st
        = Some (st', r) ->
        Store.preserved (Store.heap st) (Store.heap st')
        /\ Store.decode_batch (Store.heap st') v = Some batch).
Proof.
  intros Hdec. split; cycle 1.
  { intros budget st' r Hrun.
    pose proof (StoreFacts.convert_preserves_objects _ _ _ _ _ _ Hrun) as Hpre.
    eauto using Refinement.decode_batch_preserved. }
  assert (exists st' r,
    Store.convert_list_of_message_lists_to_input_prompt
      (S (length batch)) v tok st = Some (st', r)
    /\ Store.denotes (Store.heap st') r
         (convert_list_of_message_lists_to_input_prompt batch tok))
    as (st' & r & Hrun & Hden).
  { destruct st as [h out].
    pose proof Hdec as (items & Hitems & Hall)%Refinement.decode_batch_inv.
    cbn [Store.heap] in *.
    assert (forall h' out', Store.preserved h h' ->
              Store.decode_items
                (Store.heap {| Store.heap := h'; Store.stdout := out' |}) v
              = Some items) as Hitems'.
    { intros h' out' Hpre. eapply Refinement.decode_items_preserved, Hitems. done. }
    pose proof (Refinement.preserved_app h [Store.OList []]) as Hpre1.
    unfold Store.convert_list_of_message_lists_to_input_prompt.
    unfold Store.bind at 1, Store.alloc at 1. cbn [Store.heap Store.stdout].
    erewrite Refinement.run_bind
      by (eapply Refinement.run_type_of_list, Hitems', Hpre1).
    unfold Store.bind at 1, Store.print at 1. cbn [Store.heap Store.stdout].
    erewrite Refinement.run_bind
      by (eapply Refinement.run_subscript, Hitems', Hpre1).
    destruct Hall as [|x ml items batch Hx Hall].
    { simpl. by eexists _, _. }
    unfold getitem. cbn [lookup list_lookup].
    pose proof Hx as (xitems & Hxitems & _)%Refinement.decode_conversation_inv.
    erewrite Refinement.run_bind
      by (eapply Refinement.run_type_of_list, Refinement.decode_items_preserved,
            Hxitems; exact Hpre1).
    unfold Store.bind at 1, Store.print at 1. cbn [Store.heap Store.stdout].
    assert (Forall2 (fun x ml => Store.decode_conversation h x = Some ml)
              (x :: items) (ml :: batch)) as Hall' by (by constructor).
    destruct (Refinement.run_for_each tok h v (x :: items) (ml :: batch) (length h)
                Hitems Hall' (le_n _)
                (length (ml :: batch)) 0 (h ++ [Store.OList []])
                ((out ++ ["<class 'list'>"]) ++ ["<class 'list'>"]) [])
      as (h' & r & Hloop & Hpre' & Hres); [done | done | |].
    { by rewrite lookup_app_r, Nat.sub_diag by done. }
    rewrite (Refinement.run_bind _ _ _ _ _ Hloop).
    change (convert_list_of_message_lists_to_input_prompt (ml :: batch) tok)
      with (format_all tok (drop 0 (ml :: batch)) []).
    destruct (format_all tok (drop 0 (ml :: batch)) []) as [prompts|e].
    - destruct Hres as [-> Hprompts]. eexists _, _. split; [done|]. simpl.
      apply Refinement.decode_prompts_inv. simpl. by rewrite Hprompts.
    - subst r. by eexists _, _. }
  exists st', r.
  pose proof (StoreFacts.convert_preserves_objects _ _ _ _ _ _ Hrun) as Hpre.
  eauto using Refinement.decode_batch_preserved.
Qed.

Example sample_run :
  let prompt := "<bos>[INST] <<SYS>>" +:+ newline +:+ "S" +:+ newline
                +:+ "<</SYS>>" +:+ newline +:+ newline +:+ " U [/INST] " in
  let merged := {| role := user;
                   content := "<<SYS>>" +:+ newline +:+ "S" +:+ newline
                              +:+ "<</SYS>>" +:+ newline +:+ newline +:+ " U " |} in
  Store.convert_list_of_message_lists_to_input_prompt 3 (Store.VRef 3)
    sample_tokenizer sample_state
  = Some ({| Store.heap :=
               sample_heap
               ++ [ Store.OList [Store.VStr prompt; Store.VStr prompt];
                    Store.ODict merged; Store.OList [Store.VRef 5];
                    Store.ODict merged; Store.OList [Store.VRef 7] ];
             Store.stdout := ["<class 'list'>"; "<class 'list'>"] |},
          Return (Store.VRef 4)).
Proof. vm_compute. reflexivity. Qed.

Lemma input_batch_not_mutated_witness :
  Store.decode_batch (Store.heap sample_state) (Store.VRef 3) = Some sample_batch
  /\ exists st' r,
       Store.convert_list_of_message_lists_to_input_prompt 3 (Store.VRef 3)
         sample_tokenizer sample_state = Some (st', r)
       /\ Store.preserved sample_heap (Store.heap st')
       /\ Store.decode_batch (Store.heap st') (Store.VRef 3) = Some sample_batch.
Proof.
  split; [reflexivity|].
  destruct (input_batch_not_mutated sample_tokenizer sample_state (Store.VRef 3)
              sample_batch eq_refl)
    as [(st' & r & Hrun & Hpre & Hdec & _) _].
  exists st', r. split; [exact Hrun|]. split; [exact Hpre | exact Hdec].
Defined.

(** * Further properties of the formatter *)

(** ** Which conversations are accepted *)

Lemma accepted_alternates (ml : MessageList) (last_msg : Message) :
  roles_alternate ml = true -> last ml = Some last_msg -> role last_msg = user ->
  alternates ml = true.
Proof.
  induction ml as [| x | x y l IH] using pair_ind; [done| |].
  - intros Halt [= ->] Hrole. simpl. by rewrite bool_decide_eq_true_2.
  - intros Halt Hlast Hrole. unfold roles_alternate in Halt.
    rewrite every_other_cons2, every_other_from1_cons2 in Halt.
    simpl in Halt. rewrite !andb_true_iff in Halt.
    destruct Halt as [[Hx Hev] [Hy Hodd]].
    change (alternates (x :: y :: l))
      with (bool_decide (role x = user)
            && (bool_decide (role y = assistant) && alternates l)).
    rewrite Hx, Hy. simpl. apply IH; [| |done].
    + unfold roles_alternate. by rewrite Hev, Hodd.
    + rewrite last_cons_cons in Hlast.
      destruct l as [|z l]; [|by rewrite last_cons_cons in Hlast].
      simpl in Hlast. simplify_eq. apply bool_decide_eq_true_1 in Hy. congruence.
Qed.

Lemma format_merged_return (tok : Tokenizer) (merged : MessageList) (p : string) :
  format_merged tok merged = Return p -> alternates merged = true.
Proof.
  unfold format_merged. destruct (roles_alternate merged) eqn:Halt; [|done].
  simpl. unfold getitem_last.
  destruct (last merged) as [last_msg|] eqn:Hlast; [|done]. simpl.
  case_bool_decide as Hrole; [|done]. intros _.
  by eapply accepted_alternates.
Qed.

Lemma format_return_well_formed (tok : Tokenizer) (ml : MessageList) (p : string) :
  format_message_list tok ml = Return p -> well_formed ml = true.
Proof.
  unfold format_message_list. destruct ml as [|m rest]; [done|].
  destruct (decide (role m = system)) as [Hm|Hm].
  - destruct rest as [|m1 rest]; [by unfold merge_system; simpl; rewrite bool_decide_eq_true_2|].
    rewrite merge_system_system by done. simpl.
    intros Hp%format_merged_return. by rewrite bool_decide_eq_true_2.
  - rewrite merge_system_no_system by done. simpl.
    intros Hp%format_merged_return.
    by rewrite bool_decide_eq_false_2.
Qed.

(** X1: the conversations the loop body accepts are exactly the well-formed
    ones (an optional leading system turn, then user and assistant turns in
    alternation, ending in a user turn), and the prompt it returns for one is
    the sequence of segments of its turns after the merge. *)
Theorem accepted_iff_well_formed (tok : Tokenizer) (ml : MessageList) (p : string) :
  format_message_list tok ml = Return p
  <-> well_formed ml = true /\ p = segments tok (after_merge ml).
Proof.
  split.
  - intros Hp. pose proof (format_return_well_formed _ _ _ Hp) as Hwf.
    rewrite (well_formed_formats tok ml Hwf) in Hp. by simplify_eq.
  - intros [Hwf ->]. by apply well_formed_formats.
Qed.

Lemma format_all_return (tok : Tokenizer) (rest : list MessageList)
    (acc prompts : list string) :
  format_all tok rest acc = Return prompts
  <-> exists new,
        prompts = acc ++ new
        /\ Forall2 (fun ml p => format_message_list tok ml = Return p) rest new.
Proof.
  revert acc. induction rest as [|ml rest IH]; intros acc; simpl.
  - split.
    + intros [= <-]. exists []. by rewrite app_nil_r.
    + intros (new & -> & Hnew). inversion Hnew. by rewrite app_nil_r.
  - destruct (format_message_list tok ml) as [p|e] eqn:Hml; simpl.
    + rewrite IH. split.
      * intros (new & -> & Hnew). exists (p :: new).
        rewrite <- app_assoc. split; [done|]. by constructor.
      * intros (new & -> & Hnew). inversion Hnew as [|? p' ? new' Hp Hnew']; subst.
        rewrite Hml in Hp. simplify_eq. exists new'. by rewrite <- app_assoc.
    + split; [done|]. intros (new & _ & Hnew).
      inversion Hnew as [|? p' ? new' Hp Hnew']; subst.
      rewrite Hml in Hp. discriminate.
Qed.

(** X2: the call returns exactly on the non-empty batches in which every
    conversation is well formed, and then returns one prompt per
    conversation, in the order of the batch, each the segments of its own
    conversation. *)
Theorem returns_iff_all_well_formed (tok : Tokenizer)
    (batch : list MessageList) (prompts : list string) :
  convert_list_of_message_lists_to_input_prompt batch tok = Return prompts
  <-> batch <> []
      /\ Forall2 (fun ml p => well_formed ml = true
                              /\ p = segments tok (after_merge ml))
           batch prompts.
Proof.
  unfold convert_list_of_message_lists_to_input_prompt.
  destruct batch as [|ml0 batch].
  { split; [done | by intros [? _]]. }
  change (bind (getitem (ml0 :: batch) 0)
            (fun _ => format_all tok (ml0 :: batch) []))
    with (format_all tok (ml0 :: batch) []).
  rewrite format_all_return. split.
  - intros (new & -> & Hnew). split; [done|]. simpl.
    eapply Forall2_impl; [exact Hnew|].
    intros ml p. apply accepted_iff_well_formed.
  - intros [_ Hall]. exists prompts. split; [done|].
    eapply Forall2_impl; [exact Hall|].
    intros ml p. apply accepted_iff_well_formed.
Qed.

(** ** Which error is raised *)

Lemma exn_distinct (r : Role) :
  InvalidRoleOrdering <> MissingTrailingUserTurn r
  /\ list_index_out_of_range <> InvalidRoleOrdering
  /\ list_index_out_of_range <> MissingTrailingUserTurn r.
Proof. by destruct r. Qed.

Lemma MissingTrailingUserTurn_inj (r r' : Role) :
  MissingTrailingUserTurn r = MissingTrailingUserTurn r' -> r = r'.
Proof. by destruct r, r'. Qed.

(** X3: formatting a conversation raises an IndexError exactly when the
    conversation has no turn or is a single system turn. *)
Theorem index_error_iff (tok : Tokenizer) (ml : MessageList) :
  format_message_list tok ml = Raise list_index_out_of_range
  <-> ml = [] \/ exists c, ml = [{| role := system; content := c |}].
Proof.
  split.
  - intros [He | [(r & He & _) | [_ Hml]]]%format_message_list_raise; [| |done].
    + destruct (exn_distinct user) as (_ & Hd & _). congruence.
    + destruct (exn_distinct r) as (_ & _ & Hd). congruence.
  - by intros [-> | [c ->]].
Qed.

(** X4: the missing-trailing-user-turn error is raised only for a
    conversation whose turns, after the merge, pass the role-ordering check
    and are even in number; the role named in its message is then always
    assistant. *)
Theorem missing_trailing_names_assistant (tok : Tokenizer) (ml : MessageList)
    (r : Role) :
  format_message_list tok ml = Raise (MissingTrailingUserTurn r) ->
  r = assistant
  /\ exists merged,
       merge_system ml = Return merged
       /\ roles_alternate merged = true
       /\ Nat.even (length merged) = true.
Proof.
  unfold format_message_list.
  destruct (merge_system ml) as [merged|e] eqn:Hmerge; simpl.
  - unfold format_merged.
    destruct (roles_alternate merged) eqn:Halt; simpl.
    + unfold getitem_last.
      destruct (last merged) as [last_msg|] eqn:Hlast; simpl.
      * case_bool_decide as Hrole; simpl; [done|].
        intros Hr.
        assert (role last_msg = r) as <-
          by (apply MissingTrailingUserTurn_inj; congruence).
        rewrite last_lookup in Hlast.
        destruct (proj1 (roles_alternate_spec merged) Halt _ _ Hlast) as [Hu Ha].
        destruct (Nat.even (pred (length merged))) eqn:Hpar; [by destruct Hrole; auto|].
        assert (length merged <> 0)
          by (intros Hlen; by rewrite Hlen in Hpar).
        split; [apply Ha; by rewrite <- Nat.negb_even, Hpar|].
        exists merged. split_and!; [done..|].
        replace (length merged) with (S (pred (length merged))) by lia.
        by rewrite Nat.even_succ, <- Nat.negb_even, Hpar.
      * intros He. destruct (exn_distinct r) as (_ & _ & Hd). congruence.
    + intros He. destruct (exn_distinct r) as (Hd & _). congruence.
  - intros He. assert (e = MissingTrailingUserTurn r) as -> by congruence.
    unfold merge_system in Hmerge.
    destruct (exn_distinct r) as (_ & _ & Hd).
    destruct ml as [|m [|m1 rest]]; simpl in Hmerge;
      repeat case_bool_decide; simpl in Hmerge; congruence.
Qed.

Lemma missing_trailing_names_assistant_witness :
  format_message_list sample_tokenizer
    [ {| role := user; content := "U" |}; {| role := assistant; content := "A" |} ]
  = Raise (MissingTrailingUserTurn assistant)
  /\ assistant = assistant.
Proof.
  split; [reflexivity|].
  exact (proj1 (missing_trailing_names_assistant sample_tokenizer
                  [ {| role := user; content := "U" |};
                    {| role := assistant; content := "A" |} ] assistant eq_refl)).
Defined.

Lemma ordering_violated_raises (tok : Tokenizer) (ml merged : MessageList) :
  merge_system ml = Return merged -> ordering_violated merged ->
  format_message_list tok ml = Raise InvalidRoleOrdering.
Proof.
  intros Hmerge Hbad. unfold format_message_list. rewrite Hmerge. simpl.
  unfold format_merged. destruct (roles_alternate merged) eqn:Halt; [|done].
  by apply roles_alternate_not_violated in Halt.
Qed.

(** X5: a system turn is accepted in first position only: a conversation
    with a system turn at any later index is rejected with the
    invalid-role-ordering error. *)
Theorem later_system_turn_rejected (tok : Tokenizer) (ml : MessageList)
    (i : nat) (m : Message) :
  ml !! i = Some m -> role m = system -> 1 <= i ->
  format_message_list tok ml = Raise InvalidRoleOrdering.
Proof.
  intros Hm Hsys Hi.
  assert (forall l j, l !! j = Some m -> ordering_violated l) as Hviol.
  { intros l j Hj. exists j, m. split; [done|].
    destruct (Nat.even j) eqn:Hpar.
    - left. split; [done|]. by rewrite Hsys.
    - right. split; [by rewrite <- Nat.negb_even, Hpar|]. by rewrite Hsys. }
  destruct ml as [|m0 rest]; [done|].
  destruct i as [|i]; [lia|]. simpl in Hm.
  destruct (decide (role m0 = system)) as [H0|H0].
  - destruct rest as [|m1 rest]; [done|].
    eapply ordering_violated_raises; [by apply merge_system_system|].
    destruct i as [|i]; simpl in Hm.
    + simplify_eq. exists 0, {| role := role m;
        content := BEGIN_SYS +:+ content m0 +:+ END_SYS +:+ content m |}.
      split; [done|]. left. split; [done|]. simpl. by rewrite Hsys.
    + by apply (Hviol _ (S i)).
  - eapply ordering_violated_raises; [by apply merge_system_no_system|].
    by apply (Hviol _ (S i)).
Qed.

Lemma later_system_turn_rejected_witness :
  ([ {| role := user; content := "U" |};
     {| role := assistant; content := "A" |};
     {| role := system; content := "S" |};
     {| role := user; content := "U2" |} ] !! 2
   = Some {| role := system; content := "S" |}
   /\ 1 <= 2)
  /\ format_message_list sample_tokenizer
       [ {| role := user; content := "U" |};
         {| role := assistant; content := "A" |};
         {| role := system; content := "S" |};
         {| role := user; content := "U2" |} ]
     = Raise InvalidRoleOrdering.
Proof.
  assert (1 <= 2) as Hle by lia.
  split; [split; [reflexivity | exact Hle]|].
  exact (later_system_turn_rejected sample_tokenizer
           [ {| role := user; content := "U" |};
             {| role := assistant; content := "A" |};
             {| role := system; content := "S" |};
             {| role := user; content := "U2" |} ] 2
           {| role := system; content := "S" |} eq_refl eq_refl Hle).
Defined.

(** ** The shape of a prompt *)

Lemma segments_shape (tok : Tokenizer) (l : MessageList) :
  alternates l = true ->
  exists mid,
    segments tok l = bos_token tok +:+ BEGIN_INST +:+ mid +:+ END_INST.
Proof.
  unfold segments.
  induction l as [| x | x y l IH] using pair_ind; [done| |].
  - intros _. by exists (strip (content x)).
  - intros H. simpl in H. rewrite !andb_true_iff in H.
    destruct H as (_ & _ & [mid Hmid]%IH).
    exists (strip (content x) +:+ END_INST +:+ strip (content y)
            +:+ eos_token tok +:+ bos_token tok +:+ BEGIN_INST +:+ mid).
    simpl. fold (segments_with strip tok l). rewrite Hmid. by join_flat.
Qed.

(** X6: every prompt that is returned opens with the sequence-begin marker
    and the instruction-begin marker and closes with the instruction-end
    marker; in particular it is never empty, whatever the markers and the
    contents are. *)
Theorem prompt_opens_and_closes (tok : Tokenizer) (ml : MessageList) (p : string) :
  format_message_list tok ml = Return p ->
  (exists mid, p = bos_token tok +:+ BEGIN_INST +:+ mid +:+ END_INST)
  /\ p <> "".
Proof.
  intros [Hwf ->]%accepted_iff_well_formed.
  destruct (well_formed_after_merge ml Hwf) as [_ Halt].
  destruct (segments_shape tok _ Halt) as [mid Hmid].
  split; [by exists mid|]. rewrite Hmid.
  destruct (bos_token tok); by rewrite ?str_app_nil_l, ?str_app_cons.
Qed.

Lemma prompt_opens_and_closes_witness :
  format_message_list sample_tokenizer four_turns
  = Return ("<bos>[INST] <<SYS>>" +:+ newline +:+ "S" +:+ newline
            +:+ "<</SYS>>" +:+ newline +:+ newline
            +:+ "U1 [/INST] A1<eos><bos>[INST] U2 [/INST] ")
  /\ "<bos>[INST] <<SYS>>" +:+ newline +:+ "S" +:+ newline
     +:+ "<</SYS>>" +:+ newline +:+ newline
     +:+ "U1 [/INST] A1<eos><bos>[INST] U2 [/INST] " <> "".
Proof.
  split; [reflexivity|].
  exact (proj2 (prompt_opens_and_closes sample_tokenizer four_turns _ eq_refl)).
Defined.

(** ** Continuing a conversation *)

Lemma alternates_continue (l : MessageList) (a u : Message) :
  alternates l = true -> role a = assistant -> role u = user ->
  alternates (l ++ [a; u]) = true.
Proof.
  intros Hl Ha Hu. induction l as [| x | x y l IH] using pair_ind; [done| |].
  - simpl in *. rewrite andb_true_r in Hl.
    by rewrite Hl, !bool_decide_eq_true_2.
  - simpl in *. rewrite !andb_true_iff in *.
    destruct Hl as (Hx & Hy & Hl). auto.
Qed.

Lemma segments_continue (tok : Tokenizer) (l : MessageList) (a u : Message) :
  alternates l = true ->
  segments tok (l ++ [a; u])
  = segments tok l +:+ strip (content a) +:+ eos_token tok
    +:+ bos_token tok +:+ BEGIN_INST +:+ strip (content u) +:+ END_INST.
Proof.
  unfold segments.
  induction l as [| x | x y l IH] using pair_ind; [done| |].
  - intros _. simpl. by join_flat.
  - intros H. simpl in H. rewrite !andb_true_iff in H.
    destruct H as (_ & _ & Hl). simpl.
    fold (segments_with strip tok (l ++ [a; u])).
    fold (segments_with strip tok l). rewrite (IH Hl). by join_flat.
Qed.

Lemma well_formed_continue (ml : MessageList) (a u : Message) :
  well_formed ml = true -> role a = assistant -> role u = user ->
  well_formed (ml ++ [a; u]) = true
  /\ after_merge (ml ++ [a; u]) = after_merge ml ++ [a; u].
Proof.
  intros Hwf Ha Hu. destruct ml as [|m rest]; [done|]. simpl in Hwf.
  simpl. case_bool_decide as Hm.
  - destruct rest as [|m1 rest]; [done|]. split.
    + by apply (alternates_continue (m1 :: rest)).
    + done.
  - split.
    + by apply (alternates_continue (m :: rest)).
    + destruct rest; simpl; by rewrite ?bool_decide_eq_false_2.
Qed.

(** X7: when a conversation formats to a prompt, the conversation continued
    by an assistant answer and a new user turn formats to that same prompt
    followed by the trimmed answer, the sequence-end marker and the open
    segment of the new user turn: the prompt of each round of a chat
    extends the prompt of the round before. *)
Theorem continued_conversation_extends_prompt (tok : Tokenizer)
    (ml : MessageList) (p answer question : string) :
  format_message_list tok ml = Return p ->
  format_message_list tok
    (ml ++ [ {| role := assistant; content := answer |};
             {| role := user; content := question |} ])
  = Return (p +:+ strip answer +:+ eos_token tok
            +:+ bos_token tok +:+ BEGIN_INST +:+ strip question +:+ END_INST).
Proof.
  intros [Hwf ->]%accepted_iff_well_formed.
  destruct (well_formed_continue ml
              {| role := assistant; content := answer |}
              {| role := user; content := question |} Hwf eq_refl eq_refl)
    as [Hwf' Hmerge].
  rewrite (well_formed_formats tok _ Hwf'), Hmerge.
  rewrite segments_continue; [done|].
  by destruct (well_formed_after_merge ml Hwf).
Qed.

Lemma continued_conversation_extends_prompt_witness :
  format_message_list sample_tokenizer blank_before_user
  = Return ("<bos>[INST] <<SYS>>" +:+ newline +:+ "S" +:+ newline
            +:+ "<</SYS>>" +:+ newline +:+ newline +:+ " U [/INST] ")
  /\ format_message_list sample_tokenizer
       (blank_before_user ++ [ {| role := assistant; content := " A " |};
                               {| role := user; content := "Q" |} ])
     = Return (("<bos>[INST] <<SYS>>" +:+ newline +:+ "S" +:+ newline
                +:+ "<</SYS>>" +:+ newline +:+ newline +:+ " U [/INST] ")
               +:+ strip " A " +:+ "<eos>" +:+ "<bos>" +:+ BEGIN_INST
               +:+ strip "Q" +:+ END_INST).
Proof.
  split; [reflexivity|].
  exact (continued_conversation_extends_prompt sample_tokenizer blank_before_user
           _ " A " "Q" eq_refl).
Defined.

(** ** Batches, composed *)

Lemma format_all_acc (tok : Tokenizer) (rest : list MessageList)
    (acc : list string) :
  format_all tok rest acc
  = bind (format_all tok rest []) (fun prompts => Return (acc ++ prompts)).
Proof.
  revert acc. induction rest as [|ml rest IH]; intros acc; simpl.
  - by rewrite app_nil_r.
  - destruct (format_message_list tok ml) as [p|e]; simpl; [|done].
    rewrite (IH (acc ++ [p])), (IH [p]).
    destruct (format_all tok rest []); simpl; [|done].
    by rewrite <- app_assoc.
Qed.

(** X8: a call on two batches put one after the other, the first of which
    formats on its own, gives the prompts of the first followed by the
    prompts of the second, or the error of the second. *)
Theorem batches_compose (tok : Tokenizer) (b1 b2 : list MessageList)
    (p1 : list string) :
  b2 <> [] ->
  convert_list_of_message_lists_to_input_prompt b1 tok = Return p1 ->
  convert_list_of_message_lists_to_input_prompt (b1 ++ b2) tok
  = bind (convert_list_of_message_lists_to_input_prompt b2 tok)
      (fun p2 => Return (p1 ++ p2)).
Proof.
  intros Hb2 Hb1.
  assert (forall b, b <> [] ->
            convert_list_of_message_lists_to_input_prompt b tok
            = format_all tok b []) as Hconv.
  { intros [|ml b] Hb; [done | reflexivity]. }
  assert (b1 <> []) as Hb1' by (by destruct b1).
  rewrite Hconv in Hb1 by done.
  apply format_all_return in Hb1 as (new & -> & Hnew).
  rewrite !Hconv by (done || by destruct b1).
  rewrite (format_all_app tok b1 b2 new []) by done.
  apply format_all_acc.
Qed.

Lemma batches_compose_witness :
  ([[ {| role := user; content := "bye" |} ]] <> []
   /\ convert_list_of_message_lists_to_input_prompt
        [[ {| role := user; content := "hi" |} ]] sample_tokenizer
      = Return ["<bos>[INST] hi [/INST] "])
  /\ convert_list_of_message_lists_to_input_prompt
       ([[ {| role := user; content := "hi" |} ]]
        ++ [[ {| role := user; content := "bye" |} ]]) sample_tokenizer
     = Return ["<bos>[INST] hi [/INST] "; "<bos>[INST] bye [/INST] "].
Proof.
  assert ([[ {| role := user; content := "bye" |} ]] <> []) as Hne by discriminate.
  split; [split; [exact Hne | reflexivity]|].
  exact (batches_compose sample_tokenizer
           [[ {| role := user; content := "hi" |} ]]
           [[ {| role := user; content := "bye" |} ]] _ Hne eq_refl).
Defined.

(** ** Whitespace around contents *)

Lemma lstrip_fixed (s : string) : starts_with_space s = false -> lstrip s = s.
Proof. destruct s as [|c s]; [done|]. simpl. by intros ->. Qed.

Lemma rstrip_fixed (s : string) : ends_with_space s = false -> rstrip s = s.
Proof.
  induction s as [|c s IH]; [done|]. simpl. destruct s as [|d t].
  - simpl. by intros ->.
  - intros H. by rewrite (IH H).
Qed.

Lemma strip_fixed_iff (s : string) :
  strip s = s <-> starts_with_space s = false /\ ends_with_space s = false.
Proof.
  split.
  - intros H. destruct (strip_trimmed s) as (_ & _ & _ & _ & _ & Hs & He).
    by rewrite H in Hs, He.
  - intros [Hs He]. unfold strip. by rewrite lstrip_fixed, rstrip_fixed.
Qed.

Lemma strip_idempotent (s : string) : strip (strip s) = strip s.
Proof.
  apply strip_fixed_iff.
  by destruct (strip_trimmed s) as (_ & _ & _ & _ & _ & Hs & He).
Qed.

Lemma starts_with_space_app (s t : string) :
  s <> "" -> starts_with_space (s +:+ t) = starts_with_space s.
Proof. by destruct s. Qed.

Lemma ends_with_space_app (s t : string) :
  t <> "" -> ends_with_space (s +:+ t) = ends_with_space t.
Proof.
  intros Ht. induction s as [|c s IH]; [done|].
  rewrite str_app_cons. simpl. rewrite IH.
  destruct (s +:+ t) eqn:Hst; [|done].
  destruct s, t; simplify_eq/=.
Qed.

Lemma every_other_map {A B} (f : A -> B) (l : list A) :
  every_other (map f l) = map f (every_other l).
Proof.
  induction l as [| x | x y l IH] using pair_ind; [done..|].
  simpl map. rewrite !every_other_cons2. simpl. by rewrite IH.
Qed.

Lemma every_other_from1_map {A B} (f : A -> B) (l : list A) :
  every_other_from1 (map f l) = map f (every_other_from1 l).
Proof.
  unfold every_other_from1. destruct l as [|x l]; [done|].
  simpl. rewrite !drop_0. apply every_other_map.
Qed.

Lemma forallb_map_trim (r : Role) (l : MessageList) :
  forallb (fun msg => bool_decide (role msg = r)) (map trim_turn l)
  = forallb (fun msg => bool_decide (role msg = r)) l.
Proof. induction l as [|m l IH]; [done|]. simpl. by rewrite IH. Qed.

Lemma exchanges_map_trim (bos eos : string) (l k : MessageList) :
  map (exchange bos eos) (zip (map trim_turn l) (map trim_turn k))
  = map (exchange bos eos) (zip l k).
Proof.
  revert k. induction l as [|x l IH]; intros [|y k]; [done..|].
  simpl. rewrite IH. f_equal. unfold exchange. simpl.
  by rewrite !strip_idempotent.
Qed.

Lemma last_map_trim (l : MessageList) :
  last (map trim_turn l) = option_map trim_turn (last l).
Proof.
  induction l as [|x l IH]; [done|]. simpl map.
  rewrite !last_cons, IH. by destruct (last l).
Qed.

Lemma format_merged_map_trim (tok : Tokenizer) (l : MessageList) :
  format_merged tok (map trim_turn l) = format_merged tok l.
Proof.
  unfold format_merged, roles_alternate.
  rewrite every_other_map, every_other_from1_map.
  rewrite !forallb_map_trim.
  rewrite exchanges_map_trim. unfold getitem_last. rewrite last_map_trim.
  destruct (last l) as [last_msg|]; [|done]. simpl.
  by rewrite strip_idempotent.
Qed.

(** X9: for a conversation that does not open with a system turn, whitespace
    at the two ends of the contents has no effect at all: the conversation
    with every content trimmed beforehand gives the same prompt, or the same
    error. *)
Theorem surrounding_whitespace_ignored (tok : Tokenizer) (ml : MessageList) :
  (forall m, head ml = Some m -> role m <> system) ->
  format_message_list tok (map trim_turn ml) = format_message_list tok ml.
Proof.
  intros Hhead. destruct ml as [|m rest]; [done|].
  specialize (Hhead m eq_refl). unfold format_message_list.
  rewrite merge_system_no_system by done.
  change (map trim_turn (m :: rest)) with (trim_turn m :: map trim_turn rest).
  rewrite merge_system_no_system by done. simpl bind.
  apply (format_merged_map_trim tok (m :: rest)).
Qed.

Lemma surrounding_whitespace_ignored_witness :
  (forall m,
     head [ {| role := user; content := "  a  b " |};
            {| role := assistant; content := newline +:+ "c" |};
            {| role := user; content := " d " |} ] = Some m ->
     role m <> system)
  /\ format_message_list sample_tokenizer
       [ {| role := user; content := "a  b" |};
         {| role := assistant; content := "c" |};
         {| role := user; content := "d" |} ]
     = format_message_list sample_tokenizer
         [ {| role := user; content := "  a  b " |};
           {| role := assistant; content := newline +:+ "c" |};
           {| role := user; content := " d " |} ]
  /\ format_message_list sample_tokenizer
       [ {| role := user; content := "  a  b " |};
         {| role := assistant; content := newline +:+ "c" |};
         {| role := user; content := " d " |} ]
     = Return "<bos>[INST] a  b [/INST] c<eos><bos>[INST] d [/INST] ".
Proof.
  assert (forall m,
            head [ {| role := user; content := "  a  b " |};
                   {| role := assistant; content := newline +:+ "c" |};
                   {| role := user; content := " d " |} ] = Some m ->
            role m <> system) as Hhead.
  { intros m Hm. injection Hm as <-. discriminate. }
  split; [exact Hhead|]. split; [|reflexivity].
  exact (surrounding_whitespace_ignored sample_tokenizer
           [ {| role := user; content := "  a  b " |};
             {| role := assistant; content := newline +:+ "c" |};
             {| role := user; content := " d " |} ] Hhead).
Defined.

(** ** Markers inside contents *)

(** X10: contents are placed in the prompt as they are, markers included.
    A single user turn whose content spells out an instruction-end marker,
    an answer, the two sequence markers and an instruction-begin marker
    gives the very prompt of the three-turn conversation it imitates, so
    the prompt does not determine the conversation. *)
Theorem markers_in_content_not_escaped (tok : Tokenizer) (u a u2 : string) :
  strip u = u -> strip a = a -> strip u2 = u2 -> u <> "" -> u2 <> "" ->
  format_message_list tok
    [ {| role := user;
         content := u +:+ END_INST +:+ a +:+ eos_token tok
                    +:+ bos_token tok +:+ BEGIN_INST +:+ u2 |} ]
  = format_message_list tok
      [ {| role := user; content := u |};
        {| role := assistant; content := a |};
        {| role := user; content := u2 |} ].
Proof.
  intros [Hus Hue]%strip_fixed_iff Ha [Hu2s Hu2e]%strip_fixed_iff Hu Hu2.
  rewrite !well_formed_formats by done.
  unfold segments. simpl. f_equal.
  rewrite (proj2 (strip_fixed_iff u)), Ha, (proj2 (strip_fixed_iff u2)) by done.
  assert (strip (u +:+ END_INST +:+ a +:+ eos_token tok
                 +:+ bos_token tok +:+ BEGIN_INST +:+ u2)
          = u +:+ END_INST +:+ a +:+ eos_token tok
            +:+ bos_token tok +:+ BEGIN_INST +:+ u2) as ->.
  { apply strip_fixed_iff. split.
    - by rewrite starts_with_space_app.
    - rewrite <- !str_app_assoc. by rewrite ends_with_space_app. }
  by join_flat.
Qed.

Lemma markers_in_content_not_escaped_witness :
  (strip "hi" = "hi" /\ strip "yes" = "yes" /\ strip "so?" = "so?"
   /\ "hi" <> "" /\ "so?" <> "")
  /\ format_message_list sample_tokenizer
       [ {| role := user; content := "hi [/INST] yes<eos><bos>[INST] so?" |} ]
     = format_message_list sample_tokenizer
         [ {| role := user; content := "hi" |};
           {| role := assistant; content := "yes" |};
           {| role := user; content := "so?" |} ].
Proof.
  assert ("hi" <> "") as H1 by discriminate.
  assert ("so?" <> "") as H2 by discriminate.
  split; [split_and!; [reflexivity.. | exact H1 | exact H2]|].
  exact (markers_in_content_not_escaped sample_tokenizer "hi" "yes" "so?"
           eq_refl eq_refl eq_refl H1 H2).
Defined.

(** ** What a call leaves behind *)

(** X11: the call is not free of effects on the outside: besides building
    its result it writes to the standard output, one line with the type of
    the batch and, when the batch has a first element, one with the type of
    that element, whether the formatting then succeeds or raises.  The list
    it returns is a new object, at a location that was not in use before
    the call, so it is none of the caller's lists. *)
Theorem prints_and_returns_new_list (tok : Tokenizer) (st : Store.state)
    (v : Store.value) (batch : list MessageList) :
  Store.decode_batch (Store.heap st) v = Some batch ->
  exists st' r,
    Store.convert_list_of_message_lists_to_input_prompt
      (S (length batch)) v tok st = Some (st', r)
    /\ Store.stdout st'
       = Store.stdout st
         ++ match batch with
            | [] => ["<class 'list'>"]
            | _ :: _ => ["<class 'list'>"; "<class 'list'>"]
            end
    /\ forall result, r = Return result ->
         result = Store.VRef (length (Store.heap st))
         /\ Store.heap st !! length (Store.heap st) = None
         /\ exists prompts,
              Store.decode_prompts (Store.heap st') result = Some prompts
              /\ length prompts = length batch.
Proof.
  intros Hdec. destruct st as [h out].
  pose proof Hdec as (items & Hitems & Hall)%Refinement.decode_batch_inv.
  cbn [Store.heap Store.stdout] in *.
  assert (forall h' out', Store.preserved h h' ->
            Store.decode_items
              (Store.heap {| Store.heap := h'; Store.stdout := out' |}) v
            = Some items) as Hitems'.
  { intros h' out' Hpre. eapply Refinement.decode_items_preserved, Hitems. done. }
  pose proof (Refinement.preserved_app h [Store.OList []]) as Hpre1.
  unfold Store.convert_list_of_message_lists_to_input_prompt.
  unfold Store.bind at 1, Store.alloc at 1. cbn [Store.heap Store.stdout].
  erewrite Refinement.run_bind
    by (eapply Refinement.run_type_of_list, Hitems', Hpre1).
  unfold Store.bind at 1, Store.print at 1. cbn [Store.heap Store.stdout].
  erewrite Refinement.run_bind
    by (eapply Refinement.run_subscript, Hitems', Hpre1).
  destruct Hall as [|x ml items batch Hx Hall].
  { simpl. eexists _, _. split; [done|]. split; [done|]. by intros result. }
  unfold getitem. cbn [lookup list_lookup].
  pose proof Hx as (xitems & Hxitems & _)%Refinement.decode_conversation_inv.
  erewrite Refinement.run_bind
    by (eapply Refinement.run_type_of_list, Refinement.decode_items_preserved,
          Hxitems; exact Hpre1).
  unfold Store.bind at 1, Store.print at 1. cbn [Store.heap Store.stdout].
  assert (Forall2 (fun x ml => Store.decode_conversation h x = Some ml)
            (x :: items) (ml :: batch)) as Hall' by (by constructor).
  destruct (Refinement.run_for_each tok h v (x :: items) (ml :: batch) (length h)
              Hitems Hall' (le_n _)
              (length (ml :: batch)) 0 (h ++ [Store.OList []])
              ((out ++ ["<class 'list'>"]) ++ ["<class 'list'>"]) [])
    as (h' & r & Hloop & Hpre' & Hres); [done | done | |].
  { by rewrite lookup_app_r, Nat.sub_diag by done. }
  rewrite (Refinement.run_bind _ _ _ _ _ Hloop).
  rewrite drop_0 in Hres.
  destruct (format_all tok (ml :: batch) []) as [prompts|e] eqn:Hfmt.
  - destruct Hres as [-> Hprompts]. eexists _, _.
    split; [done|]. cbn [Store.stdout]. split; [by rewrite <- app_assoc|].
    intros result [= <-]. split; [done|].
    split; [by apply lookup_ge_None_2|].
    exists prompts. split.
    + apply Refinement.decode_prompts_inv. simpl. by rewrite Hprompts.
    + apply format_all_return in Hfmt as (new & -> & Hnew).
      symmetry. by apply Forall2_length in Hnew.
  - subst r. eexists _, _. split; [done|]. cbn [Store.stdout].
    split; [by rewrite <- app_assoc | by intros result].
Qed.

Lemma prints_and_returns_new_list_witness :
  Store.decode_batch (Store.heap sample_state) (Store.VRef 3) = Some sample_batch
  /\ exists st' r,
       Store.convert_list_of_message_lists_to_input_prompt 3 (Store.VRef 3)
         sample_tokenizer sample_state = Some (st', r)
       /\ Store.stdout st' = ["<class 'list'>"; "<class 'list'>"].
Proof.
  split; [reflexivity|].
  destruct (prints_and_returns_new_list sample_tokenizer sample_state
              (Store.VRef 3) sample_batch eq_refl)
    as (st' & r & Hrun & Hout & _).
  exists st', r. split; [exact Hrun | exact Hout].
Defined.

(** ** Where an error of a batch comes from *)

Lemma format_all_raise_first (tok : Tokenizer) (rest : list MessageList)
    (acc : list string) (e : exn) :
  format_all tok rest acc = Raise e ->
  exists before bad after,
    rest = before ++ bad :: after
    /\ Forall (fun ml => well_formed ml = true) before
    /\ format_message_list tok bad = Raise e.
Proof.
  revert acc. induction rest as [|ml rest IH]; intros acc; [done|]. simpl.
  destruct (format_message_list tok ml) as [p|e'] eqn:Hml; simpl.
  - intros (before & bad & after & -> & Hbefore & Hbad)%IH.
    exists (ml :: before), bad, after. split_and!; [done| |done].
    constructor; [|done]. by eapply format_return_well_formed.
  - intros [= ->]. by exists [], ml, rest.
Qed.

(** X12: when the call raises on a non-empty batch, the error is the one of
    the first conversation of the batch that is not well formed: every
    conversation before it is well formed, and formatting it alone raises
    that error. *)
Theorem error_is_of_first_malformed (tok : Tokenizer)
    (batch : list MessageList) (e : exn) :
  batch <> [] ->
  convert_list_of_message_lists_to_input_prompt batch tok = Raise e ->
  exists before bad after,
    batch = before ++ bad :: after
    /\ Forall (fun ml => well_formed ml = true) before
    /\ well_formed bad = false
    /\ format_message_list tok bad = Raise e.
Proof.
  intros Hne Hrun. destruct batch as [|ml0 batch]; [done|].
  change (format_all tok (ml0 :: batch) [] = Raise e) in Hrun.
  apply format_all_raise_first in Hrun
    as (before & bad & after & -> & Hbefore & Hbad).
  exists before, bad, after. split_and!; [done..| |done].
  destruct (well_formed bad) eqn:Hwf; [|done].
  by rewrite (well_formed_formats tok bad Hwf) in Hbad.
Qed.

Lemma error_is_of_first_malformed_witness :
  ([[ {| role := user; content := "hi" |} ];
    [ {| role := user; content := "U" |}; {| role := assistant; content := "A" |} ];
    []] <> []
   /\ convert_list_of_message_lists_to_input_prompt
        [[ {| role := user; content := "hi" |} ];
         [ {| role := user; content := "U" |};
           {| role := assistant; content := "A" |} ];
         []] sample_tokenizer
      = Raise (MissingTrailingUserTurn assistant))
  /\ exists before bad after,
       [[ {| role := user; content := "hi" |} ];
        [ {| role := user; content := "U" |}; {| role := assistant; content := "A" |} ];
        []] = before ++ bad :: after
       /\ Forall (fun ml => well_formed ml = true) before
       /\ well_formed bad = false
       /\ format_message_list sample_tokenizer bad
          = Raise (MissingTrailingUserTurn assistant).
Proof.
  assert ([[ {| role := user; content := "hi" |} ];
           [ {| role := user; content := "U" |};
             {| role := assistant; content := "A" |} ];
           []] <> []) as Hne by discriminate.
  split; [split; [exact Hne | reflexivity]|].
  exact (error_is_of_first_malformed sample_tokenizer _
           (MissingTrailingUserTurn assistant) Hne eq_refl).
Defined.
